(** * GuffGaff client: the peer-connection negotiation and recovery logic

    A shallow embedding of [src/Home/VideoChat.tsx].  The React component
    keeps its data in [useState] cells ([streams], [connectionState],
    [controls], [stats]) and in [useRef] cells ([peerConnectionRef],
    [socketRef], [isNegotiatingRef], [makingOfferRef],
    [reconnectTimeoutRef]).  Here they are the fields of one record,
    [World], threaded through every handler.

    Objects that the component creates and later reaches through a
    reference (peer connections, sockets, timers, media tracks) live in
    lists indexed by their identifier, so that two references to the same
    object see the same updates.

    Closures.  A callback reads [streams.localStream],
    [connectionState.isInitiator] and [connectionState.reconnectAttempts]
    from the render that created it, not from the current state.  These
    three values are exactly the state dependencies of the [useCallback]
    chain [createPeerConnection] (lines 218-224) -> [initializeSocket]
    (line 343) -> [findPartner] (line 386), so a callback taken from the
    latest render holds their current values.  But the socket handlers are
    registered once, by the render in which [initializeSocket] ran (the
    mount effect has an empty dependency list, line 421), and the four
    callbacks of a peer connection are those of the [createPeerConnection]
    that built it.  A socket and a peer connection therefore carry a
    [Captured] record with the three values as they were when their
    callbacks were created.  Functional updates
    ([setConnectionState (prev => ...)]) and reads of [useRef] cells act
    on the current state. *)

From Stdlib Require Import String.
From stdpp Require Import base option list.

Open Scope string_scope.
Open Scope list_scope.

(** ** Constants (VideoChat.tsx, lines 43-44) *)

Definition MAX_RECONNECT_ATTEMPTS : nat := 3.
Definition RECONNECT_DELAY : nat := 2000.

(** ** Data model *)

Inductive TrackKind := Audio | Video.

(** A [MediaStreamTrack]: its kind, the [enabled] flag that the mute
    buttons flip, and whether [stop()] has ended it. *)
Record Track := mkTrack {
  kind : TrackKind;
  enabled : bool;
  ended : bool
}.

(** A local [MediaStream] is the list of the identifiers of its tracks in
    the track store; a remote stream is an opaque platform object. *)
Definition MediaStream := list nat.
Definition RemoteStream := nat.

(** [interface VideoStreamState] *)
Record VideoStreamState := mkStreams {
  localStream : option MediaStream;
  remoteStream : option RemoteStream
}.

(** [interface ConnectionState] *)
Record ConnectionState := mkConn {
  isConnected : bool;
  isWaiting : bool;
  error : option string;
  status : string;
  isInitiator : bool;
  reconnectAttempts : nat
}.

Record Controls := mkControls {
  isMuted : bool;
  isVideoOff : bool
}.

(** [interface Stats] *)
Record Stats := mkStats {
  totalUsers : nat;
  waitingUsers : nat;
  activePartnerships : nat
}.

(** The values a callback closes over. *)
Record Captured := mkCaptured {
  cap_localStream : option MediaStream;
  cap_isInitiator : bool;
  cap_reconnectAttempts : nat
}.

(** Session descriptions.  The program only produces and expects offers
    and answers. *)
Inductive SdpType := Offer | Answer.

Record Desc := mkDesc {
  d_type : SdpType;
  d_sdp : nat
}.

Definition Candidate := nat.

(** [RTCPeerConnection.signalingState] *)
Inductive SignalingState :=
  | Stable
  | HaveLocalOffer
  | HaveRemoteOffer
  | HaveLocalPranswer
  | HaveRemotePranswer
  | SigClosed.

(** [RTCPeerConnection.iceConnectionState] *)
Inductive IceState :=
  | IceNew
  | IceChecking
  | IceConnected
  | IceCompleted
  | IceFailed
  | IceDisconnected
  | IceClosed.

(** An [RTCPeerConnection] together with what its four callbacks close
    over ([pc_env]) and the number of [onnegotiationneeded] runs that are
    suspended at [await pc.setLocalDescription()]. *)
Record PeerConn := mkPC {
  pc_closed : bool;
  pc_signalingState : SignalingState;
  pc_localDescription : option Desc;
  pc_remoteDescription : option Desc;
  pc_senders : list nat;
  pc_candidates : list Candidate;
  pc_iceConnectionState : IceState;
  pc_env : Captured;
  pc_pending : nat
}.

(** A socket.io client: its [connected] flag and what the handlers that
    [initializeSocket] registered on it close over. *)
Record Socket := mkSocket {
  sock_connected : bool;
  sock_env : Captured
}.

(** A [setTimeout] timer whose callback is [findPartner]. *)
Record Timer := mkTimer {
  t_pending : bool;
  t_delay : nat;
  t_env : Captured
}.

(** What [emit] sends, tagged with the socket it was sent on. *)
Inductive Payload :=
  | EmitOffer (peerId : nat) (offer : option Desc)
  | EmitAnswer (peerId : nat) (answer : Desc)
  | EmitIceCandidate (peerId : nat) (candidate : Candidate)
  | EmitFindMatch.

Record World := mkWorld {
  streams : VideoStreamState;
  connectionState : ConnectionState;
  controls : Controls;
  stats : Stats;
  tracks : list Track;
  pcs : list PeerConn;
  sockets : list Socket;
  timers : list Timer;
  peerConnectionRef : option nat;
  socketRef : option nat;
  isNegotiatingRef : bool;
  makingOfferRef : bool;
  reconnectTimeoutRef : option nat;
  emitted : list (nat * Payload)
}.

(** ** Field updates *)

Definition set_streams (f : VideoStreamState -> VideoStreamState) (w : World) : World :=
  mkWorld (f (streams w)) (connectionState w) (controls w) (stats w) (tracks w)
    (pcs w) (sockets w) (timers w) (peerConnectionRef w) (socketRef w)
    (isNegotiatingRef w) (makingOfferRef w) (reconnectTimeoutRef w) (emitted w).

Definition setConnectionState (f : ConnectionState -> ConnectionState) (w : World) : World :=
  mkWorld (streams w) (f (connectionState w)) (controls w) (stats w) (tracks w)
    (pcs w) (sockets w) (timers w) (peerConnectionRef w) (socketRef w)
    (isNegotiatingRef w) (makingOfferRef w) (reconnectTimeoutRef w) (emitted w).

Definition setControls (f : Controls -> Controls) (w : World) : World :=
  mkWorld (streams w) (connectionState w) (f (controls w)) (stats w) (tracks w)
    (pcs w) (sockets w) (timers w) (peerConnectionRef w) (socketRef w)
    (isNegotiatingRef w) (makingOfferRef w) (reconnectTimeoutRef w) (emitted w).

Definition setStats (s : Stats) (w : World) : World :=
  mkWorld (streams w) (connectionState w) (controls w) s (tracks w)
    (pcs w) (sockets w) (timers w) (peerConnectionRef w) (socketRef w)
    (isNegotiatingRef w) (makingOfferRef w) (reconnectTimeoutRef w) (emitted w).

Definition set_tracks (f : list Track -> list Track) (w : World) : World :=
  mkWorld (streams w) (connectionState w) (controls w) (stats w) (f (tracks w))
    (pcs w) (sockets w) (timers w) (peerConnectionRef w) (socketRef w)
    (isNegotiatingRef w) (makingOfferRef w) (reconnectTimeoutRef w) (emitted w).

Definition set_pcs (f : list PeerConn -> list PeerConn) (w : World) : World :=
  mkWorld (streams w) (connectionState w) (controls w) (stats w) (tracks w)
    (f (pcs w)) (sockets w) (timers w) (peerConnectionRef w) (socketRef w)
    (isNegotiatingRef w) (makingOfferRef w) (reconnectTimeoutRef w) (emitted w).

Definition set_sockets (f : list Socket -> list Socket) (w : World) : World :=
  mkWorld (streams w) (connectionState w) (controls w) (stats w) (tracks w)
    (pcs w) (f (sockets w)) (timers w) (peerConnectionRef w) (socketRef w)
    (isNegotiatingRef w) (makingOfferRef w) (reconnectTimeoutRef w) (emitted w).

Definition set_timers (f : list Timer -> list Timer) (w : World) : World :=
  mkWorld (streams w) (connectionState w) (controls w) (stats w) (tracks w)
    (pcs w) (sockets w) (f (timers w)) (peerConnectionRef w) (socketRef w)
    (isNegotiatingRef w) (makingOfferRef w) (reconnectTimeoutRef w) (emitted w).

Definition set_peerConnectionRef (r : option nat) (w : World) : World :=
  mkWorld (streams w) (connectionState w) (controls w) (stats w) (tracks w)
    (pcs w) (sockets w) (timers w) r (socketRef w)
    (isNegotiatingRef w) (makingOfferRef w) (reconnectTimeoutRef w) (emitted w).

Definition set_socketRef (r : option nat) (w : World) : World :=
  mkWorld (streams w) (connectionState w) (controls w) (stats w) (tracks w)
    (pcs w) (sockets w) (timers w) (peerConnectionRef w) r
    (isNegotiatingRef w) (makingOfferRef w) (reconnectTimeoutRef w) (emitted w).

Definition set_isNegotiatingRef (b : bool) (w : World) : World :=
  mkWorld (streams w) (connectionState w) (controls w) (stats w) (tracks w)
    (pcs w) (sockets w) (timers w) (peerConnectionRef w) (socketRef w)
    b (makingOfferRef w) (reconnectTimeoutRef w) (emitted w).

Definition set_makingOfferRef (b : bool) (w : World) : World :=
  mkWorld (streams w) (connectionState w) (controls w) (stats w) (tracks w)
    (pcs w) (sockets w) (timers w) (peerConnectionRef w) (socketRef w)
    (isNegotiatingRef w) b (reconnectTimeoutRef w) (emitted w).

Definition set_reconnectTimeoutRef (r : option nat) (w : World) : World :=
  mkWorld (streams w) (connectionState w) (controls w) (stats w) (tracks w)
    (pcs w) (sockets w) (timers w) (peerConnectionRef w) (socketRef w)
    (isNegotiatingRef w) (makingOfferRef w) r (emitted w).

(** [socket.emit(...)] on socket [sid]. *)
Definition emit (sid : nat) (p : Payload) (w : World) : World :=
  mkWorld (streams w) (connectionState w) (controls w) (stats w) (tracks w)
    (pcs w) (sockets w) (timers w) (peerConnectionRef w) (socketRef w)
    (isNegotiatingRef w) (makingOfferRef w) (reconnectTimeoutRef w)
    (emitted w ++ [(sid, p)]).

(** Updates of single fields of [connectionState]. *)
Definition cs_error (e : option string) (c : ConnectionState) : ConnectionState :=
  mkConn (isConnected c) (isWaiting c) e (status c) (isInitiator c) (reconnectAttempts c).
Definition cs_status (s : string) (c : ConnectionState) : ConnectionState :=
  mkConn (isConnected c) (isWaiting c) (error c) s (isInitiator c) (reconnectAttempts c).

(** Updates of a peer connection in place. *)
Definition pc_set_closed (pc : PeerConn) : PeerConn :=
  mkPC true SigClosed (pc_localDescription pc) (pc_remoteDescription pc)
    (pc_senders pc) (pc_candidates pc) IceClosed (pc_env pc) (pc_pending pc).

Definition pc_set_ice (s : IceState) (pc : PeerConn) : PeerConn :=
  mkPC (pc_closed pc) (pc_signalingState pc) (pc_localDescription pc)
    (pc_remoteDescription pc) (pc_senders pc) (pc_candidates pc) s
    (pc_env pc) (pc_pending pc).

Definition pc_set_pending (n : nat) (pc : PeerConn) : PeerConn :=
  mkPC (pc_closed pc) (pc_signalingState pc) (pc_localDescription pc)
    (pc_remoteDescription pc) (pc_senders pc) (pc_candidates pc)
    (pc_iceConnectionState pc) (pc_env pc) n.

Definition pc_add_candidate (c : Candidate) (pc : PeerConn) : PeerConn :=
  mkPC (pc_closed pc) (pc_signalingState pc) (pc_localDescription pc)
    (pc_remoteDescription pc) (pc_senders pc) (pc_candidates pc ++ [c])
    (pc_iceConnectionState pc) (pc_env pc) (pc_pending pc).

(** A successful [setLocalDescription]: the description becomes the local
    one, and the signaling state moves as the platform specifies (an offer
    leaves [stable], an answer returns to it). *)
Definition apply_local (d : Desc) (pc : PeerConn) : PeerConn :=
  mkPC (pc_closed pc)
    (match d_type d with Offer => HaveLocalOffer | Answer => Stable end)
    (Some d) (pc_remoteDescription pc) (pc_senders pc) (pc_candidates pc)
    (pc_iceConnectionState pc) (pc_env pc) (pc_pending pc).

(** A successful [setRemoteDescription]. *)
Definition apply_remote (d : Desc) (pc : PeerConn) : PeerConn :=
  mkPC (pc_closed pc)
    (match d_type d with Offer => HaveRemoteOffer | Answer => Stable end)
    (pc_localDescription pc) (Some d) (pc_senders pc) (pc_candidates pc)
    (pc_iceConnectionState pc) (pc_env pc) (pc_pending pc).

(** [update_pc i f w] applies [f] to the peer connection [i]. *)
Definition update_pc (i : nat) (f : PeerConn -> PeerConn) (w : World) : World :=
  set_pcs (fun l => match l !! i with
                    | Some pc => <[i := f pc]> l
                    | None => l
                    end) w.

Definition signaling_stable (s : SignalingState) : bool :=
  match s with Stable => true | _ => false end.

(** The values a callback created in the current render closes over. *)
Definition snapshot (w : World) : Captured :=
  mkCaptured (localStream (streams w))
    (isInitiator (connectionState w))
    (reconnectAttempts (connectionState w)).

(** ** The component's callbacks *)

(** [cleanupPeerConnection] (lines 80-86). *)
Definition cleanupPeerConnection (w : World) : World :=
  let w1 :=
    match peerConnectionRef w with
    | Some i => set_peerConnectionRef None (update_pc i pc_set_closed w)
    | None => w
    end in
  set_streams (fun prev => mkStreams (localStream prev) None) w1.

(** [handleDisconnect] (lines 88-97). *)
Definition handleDisconnect (w : World) : World :=
  setConnectionState
    (fun prev => mkConn false false (error prev) "Disconnected" false
                   (reconnectAttempts prev))
    (cleanupPeerConnection w).

(** What the platform answers to the calls a handler awaits.  The program
    cannot influence these results; every one of them can be a rejection
    (a thrown error). *)
Record Outcome := mkOutcome {
  ctor_ok : bool;                     (* new RTCPeerConnection(...) *)
  setRemote_ok : bool;                (* pc.setRemoteDescription(...) *)
  createAnswer_res : option Desc;     (* pc.createAnswer() *)
  setLocal_ok : bool;                 (* pc.setLocalDescription(answer) *)
  addIce_ok : bool                    (* pc.addIceCandidate(...) *)
}.

(** [createPeerConnection] (lines 99-224).  The function contains no
    [await], so it runs to completion without interleaving.  It returns
    the identifier of the new connection, or [None] from its [catch]. *)
Definition createPeerConnection (env : Captured) (ok : bool) (w : World)
  : option nat * World :=
  let w1 := cleanupPeerConnection w in
  if ok then
    let i := length (pcs w1) in
    let pc := mkPC false Stable None None
                (match cap_localStream env with
                 | Some ms => ms
                 | None => []
                 end)
                [] IceNew env 0 in
    (Some i, set_peerConnectionRef (Some i) (set_pcs (fun l => l ++ [pc]) w1))
  else
    (None,
     setConnectionState (cs_error (Some "Failed to create peer connection")) w1).

(** The [finally] block of [pc.onnegotiationneeded] (lines 130-133). *)
Definition release_flags (w : World) : World :=
  set_isNegotiatingRef false (set_makingOfferRef false w).

(** [pc.onnegotiationneeded] (lines 113-134), up to its only suspension
    point [await pc.setLocalDescription()].  The early [return] is inside
    the [try], so the [finally] block runs on that path too. *)
Definition onnegotiationneeded (i : nat) (w : World) : World :=
  match pcs w !! i with
  | None => w
  | Some pc =>
      if isNegotiatingRef w || negb (cap_isInitiator (pc_env pc)) then
        release_flags w
      else
        update_pc i (pc_set_pending (S (pc_pending pc)))
          (set_makingOfferRef true (set_isNegotiatingRef true w))
  end.

(** [pc.onnegotiationneeded] from the point where
    [pc.setLocalDescription()] settles: [Some d] when it resolved having
    installed the description [d], [None] when it rejected. *)
Definition onnegotiationneeded_settled (i : nat) (r : option Desc) (w : World) : World :=
  match pcs w !! i with
  | None => w
  | Some pc =>
      match pc_pending pc with
      | 0 => w
      | S n =>
          let w1 := update_pc i (pc_set_pending n) w in
          let w2 :=
            match r with
            | Some d =>
                let w' := update_pc i (apply_local d) w1 in
                match socketRef w' with
                | Some sid =>
                    emit sid (EmitOffer sid (pcs w' !! i ≫= pc_localDescription)) w'
                | None => w'
                end
            | None =>
                setConnectionState
                  (cs_error (Some "Connection negotiation failed")) w1
            end in
          release_flags w2
      end
  end.

(** [pc.ontrack] (lines 142-152); the argument is [event.streams?.[0]]. *)
Definition ontrack (s : option RemoteStream) (w : World) : World :=
  match s with
  | Some rs =>
      setConnectionState
        (fun prev => mkConn true (isWaiting prev) None "Connected to partner"
                       (isInitiator prev) (reconnectAttempts prev))
        (set_streams (fun prev => mkStreams (localStream prev) (Some rs)) w)
  | None => w
  end.

Definition socket_connected (w : World) (sid : nat) : bool :=
  match sockets w !! sid with
  | Some s => sock_connected s
  | None => false
  end.

(** [pc.onicecandidate] (lines 154-161). *)
Definition onicecandidate (c : option Candidate) (w : World) : World :=
  match c, socketRef w with
  | Some cand, Some sid =>
      if socket_connected w sid then emit sid (EmitIceCandidate sid cand) w
      else w
  | _, _ => w
  end.

(** [clearTimeout]. *)
Definition clearTimeout (t : nat) (w : World) : World :=
  set_timers (fun l => match l !! t with
                       | Some tm => <[t := mkTimer false (t_delay tm) (t_env tm)]> l
                       | None => l
                       end) w.

(** [setTimeout(() => findPartner(), delay)] from a callback closing over
    [env]; the new timer's identifier is stored in [reconnectTimeoutRef]. *)
Definition setTimeout_findPartner (env : Captured) (delay : nat) (w : World) : World :=
  let t := length (timers w) in
  set_reconnectTimeoutRef (Some t)
    (set_timers (fun l => l ++ [mkTimer true delay env]) w).

(** [pc.oniceconnectionstatechange] (lines 163-207) of connection [i],
    once the platform has moved [pc.iceConnectionState] to [st].  The test
    against the ceiling reads the captured [connectionState]; the
    increment is a functional update of the current one. *)
Definition oniceconnectionstatechange (i : nat) (st : IceState) (w : World) : World :=
  match pcs w !! i with
  | None => w
  | Some pc =>
      let env := pc_env pc in
      let w0 := update_pc i (pc_set_ice st) w in
      match st with
      | IceFailed =>
          if bool_decide (cap_reconnectAttempts env < MAX_RECONNECT_ATTEMPTS) then
            let w1 :=
              setConnectionState
                (fun prev =>
                   mkConn (isConnected prev) (isWaiting prev) (error prev)
                     "Connection failed. Attempting to reconnect..."
                     (isInitiator prev) (reconnectAttempts prev + 1)) w0 in
            let w2 :=
              match reconnectTimeoutRef w1 with
              | Some t => clearTimeout t w1
              | None => w1
              end in
            setTimeout_findPartner env RECONNECT_DELAY w2
          else
            setConnectionState
              (cs_error (Some "Connection failed after multiple attempts"))
              (handleDisconnect w0)
      | IceDisconnected =>
          setConnectionState
            (cs_status "Connection interrupted. Attempting to restore...") w0
      | IceConnected =>
          setConnectionState
            (fun prev =>
               mkConn (isConnected prev) (isWaiting prev) None
                 "Connected to partner" (isInitiator prev) 0) w0
      | _ => w0
      end
  end.

(** [initializeSocket] (lines 226-343): unless the current socket is
    connected, a new socket is created, the handlers (closing over [env])
    are registered on it, and it replaces [socketRef.current]. *)
Definition initializeSocket (env : Captured) (w : World) : World :=
  match socketRef w with
  | Some sid =>
      if socket_connected w sid then w
      else set_socketRef (Some (length (sockets w)))
             (set_sockets (fun l => l ++ [mkSocket false env]) w)
  | None =>
      set_socketRef (Some (length (sockets w)))
        (set_sockets (fun l => l ++ [mkSocket false env]) w)
  end.

(** [findPartner] (lines 371-386). *)
Definition findPartner (env : Captured) (w : World) : World :=
  match socketRef w with
  | Some sid =>
      if socket_connected w sid then
        emit sid EmitFindMatch
          (setConnectionState
             (fun prev => mkConn false true (error prev) "Looking for a partner..."
                            (isInitiator prev) (reconnectAttempts prev))
             (cleanupPeerConnection w))
      else initializeSocket env w
  | None => initializeSocket env w
  end.

(** The handler of ["match"] (lines 257-271).  [createPeerConnection]
    catches its own errors, so the handler's [catch] is never entered. *)
Definition on_match (env : Captured) (o : Outcome) (w : World) : World :=
  let w1 :=
    setConnectionState
      (fun prev => mkConn (isConnected prev) false (error prev)
                     "Partner found! Establishing connection..." true
                     (reconnectAttempts prev)) w in
  snd (createPeerConnection env (ctor_ok o) w1).

(** [peerConnectionRef.current || (await createPeerConnection())]
    (line 275). *)
Definition current_or_create (env : Captured) (o : Outcome) (w : World)
  : option nat * World :=
  match peerConnectionRef w with
  | Some i => (Some i, w)
  | None => createPeerConnection env (ctor_ok o) w
  end.

(** The [offerCollision] test (lines 278-280) on the connection [pc]. *)
Definition offerCollision (env : Captured) (w : World) (pc : PeerConn) : bool :=
  makingOfferRef w
  || (negb (signaling_stable (pc_signalingState pc))
      && negb (cap_isInitiator env)).

(** The handler of ["offer"] (lines 273-295) registered on socket [sid].
    The run of the handler is taken as one step: no other event is
    delivered between its [await]s. *)
Definition on_offer (sid : nat) (env : Captured) (peerId : nat) (offer : Desc)
    (o : Outcome) (w : World) : World :=
  let '(r, w1) := current_or_create env o w in
  match r with
  | None => w1
  | Some i =>
      match pcs w1 !! i with
      | None => w1
      | Some pc =>
          if offerCollision env w1 pc then w1
          else if negb (setRemote_ok o) then handleDisconnect w1
          else
            let w2 := update_pc i (apply_remote offer) w1 in
            match createAnswer_res o with
            | None => handleDisconnect w2
            | Some answer =>
                if negb (setLocal_ok o) then handleDisconnect w2
                else emit sid (EmitAnswer peerId answer)
                       (update_pc i (apply_local answer) w2)
            end
      end
  end.

(** The handler of ["answer"] (lines 297-308). *)
Definition on_answer (answer : Desc) (o : Outcome) (w : World) : World :=
  match peerConnectionRef w with
  | None => w
  | Some i =>
      if negb (setRemote_ok o) then handleDisconnect w
      else update_pc i (apply_remote answer) w
  end.

(** The handler of ["ice-candidate"] (lines 310-319); a rejection of
    [addIceCandidate] is only logged. *)
Definition on_ice_candidate (c : Candidate) (o : Outcome) (w : World) : World :=
  match peerConnectionRef w with
  | None => w
  | Some i =>
      match pcs w !! i ≫= pc_remoteDescription with
      | None => w
      | Some _ =>
          if addIce_ok o then update_pc i (pc_add_candidate c) w else w
      end
  end.

(** The handler of ["partner-left"] (lines 321-327). *)
Definition on_partner_left (w : World) : World :=
  setConnectionState (cs_status "Partner left. You can find a new partner.")
    (handleDisconnect w).

(** The handler of ["waiting"] (lines 329-335). *)
Definition on_waiting (w : World) : World :=
  setConnectionState
    (fun prev => mkConn (isConnected prev) true (error prev)
                   "Waiting for a partner..." (isInitiator prev)
                   (reconnectAttempts prev)) w.

(** The handlers of ["connect_error"] and ["connect"] (lines 240-255). *)
Definition on_connect_error (msg : string) (w : World) : World :=
  setConnectionState (cs_error (Some (String.append "Connection error: " msg))) w.

Definition on_connect (w : World) : World :=
  setConnectionState
    (fun prev => mkConn (isConnected prev) (isWaiting prev) None
                   "Connected to server" (isInitiator prev)
                   (reconnectAttempts prev)) w.

(** [MediaStream.getAudioTracks] / [getVideoTracks]: the tracks of the
    stream that have the given kind. *)
Definition kind_eqb (a b : TrackKind) : bool :=
  match a, b with
  | Audio, Audio | Video, Video => true
  | _, _ => false
  end.

Definition getTracksOfKind (k : TrackKind) (ts : list Track) (ms : MediaStream)
  : list nat :=
  List.filter (fun i => match ts !! i with
                        | Some t => kind_eqb (kind t) k
                        | None => false
                        end) ms.

(** [track.enabled = !track.enabled] on the track [i] of the store. *)
Definition flip_enabled (ts : list Track) (i : nat) : list Track :=
  match ts !! i with
  | Some t => <[i := mkTrack (kind t) (negb (enabled t)) (ended t)]> ts
  | None => ts
  end.

(** [toggleAudio] (lines 388-396) and [toggleVideo] (lines 398-406). *)
Definition toggleAudio (env : Captured) (w : World) : World :=
  match cap_localStream env with
  | Some ms =>
      setControls (fun prev => mkControls (negb (isMuted prev)) (isVideoOff prev))
        (set_tracks
           (fun ts => foldl flip_enabled ts (getTracksOfKind Audio ts ms)) w)
  | None => w
  end.

Definition toggleVideo (env : Captured) (w : World) : World :=
  match cap_localStream env with
  | Some ms =>
      setControls (fun prev => mkControls (isMuted prev) (negb (isVideoOff prev)))
        (set_tracks
           (fun ts => foldl flip_enabled ts (getTracksOfKind Video ts ms)) w)
  | None => w
  end.

(** [initializeMedia] (lines 345-369) once [getUserMedia] has settled:
    either with a stream of fresh tracks, or with an error message. *)
Definition initializeMedia_ok (ts : list Track) (w : World) : World :=
  let ids := seq (length (tracks w)) (length ts) in
  set_streams (fun prev => mkStreams (Some ids) (remoteStream prev))
    (set_tracks (fun l => l ++ ts) w).

Definition initializeMedia_error (msg : string) (w : World) : World :=
  setConnectionState
    (cs_error (Some (String.append "Camera/Microphone access failed: " msg))) w.

(** ** Events and the event loop

    The component is single-threaded: it reacts to one event at a time.
    An event is a message of the signaling server on a socket, a callback
    of a peer connection, the reconnect timer, the settling of
    [getUserMedia], or a click on one of the three buttons. *)

Inductive SocketMsg :=
  | MsgConnectError (msg : string)
  | MsgConnect
  | MsgDisconnect
  | MsgMatch (peerId : nat)
  | MsgOffer (peerId : nat) (offer : Desc)
  | MsgAnswer (answer : Desc)
  | MsgIceCandidate (candidate : Candidate)
  | MsgPartnerLeft
  | MsgWaiting
  | MsgStatsUpdate (newStats : Stats).

Inductive PcEvent :=
  | NegotiationNeeded
  | SetLocalSettled (r : option Desc)
  | TrackEvent (s : option RemoteStream)
  | IceCandidateEvent (c : option Candidate)
  | IceConnectionStateChange (st : IceState).

Inductive Event :=
  | EvMediaOk (ts : list Track)
  | EvMediaError (msg : string)
  | EvSocket (sid : nat) (m : SocketMsg) (o : Outcome)
  | EvPc (i : nat) (ev : PcEvent)
  | EvTimer (t : nat)
  | ClickFindPartner
  | ClickToggleAudio
  | ClickToggleVideo.

Definition set_socket_connected (sid : nat) (b : bool) (w : World) : World :=
  set_sockets (fun l => match l !! sid with
                        | Some s => <[sid := mkSocket b (sock_env s)]> l
                        | None => l
                        end) w.

(** Modelled from the spec: the [Button] component ([components/ui/button],
    not among the sources) forwards [disabled] to the native button, so a
    click on the find-partner button (lines 516-527) runs [findPartner]
    only while [connectionState.isWaiting] is false; the spec words it as
    "find new partner" disabled while waiting. *)
Definition click_findPartner (w : World) : World :=
  if isWaiting (connectionState w) then w
  else findPartner (snapshot w) w.

(** Delivery of a server message to the handlers registered on socket
    [sid].  Application messages reach a socket only while it is
    connected. *)
Definition socket_event (sid : nat) (m : SocketMsg) (o : Outcome) (w : World) : World :=
  match sockets w !! sid with
  | None => w
  | Some s =>
      let env := sock_env s in
      match m with
      | MsgConnectError msg => on_connect_error msg w
      | MsgConnect => on_connect (set_socket_connected sid true w)
      | MsgDisconnect => set_socket_connected sid false w
      | _ =>
          if sock_connected s then
            match m with
            | MsgMatch _ => on_match env o w
            | MsgOffer peerId offer => on_offer sid env peerId offer o w
            | MsgAnswer answer => on_answer answer o w
            | MsgIceCandidate c => on_ice_candidate c o w
            | MsgPartnerLeft => on_partner_left w
            | MsgWaiting => on_waiting w
            | MsgStatsUpdate s' => setStats s' w
            | _ => w
            end
          else w
      end
  end.

(** Delivery of a callback of peer connection [i]; a closed connection
    fires no callbacks and settles no pending call. *)
Definition pc_event (i : nat) (ev : PcEvent) (w : World) : World :=
  match pcs w !! i with
  | None => w
  | Some pc =>
      if pc_closed pc then w
      else
        match ev with
        | NegotiationNeeded => onnegotiationneeded i w
        | SetLocalSettled r => onnegotiationneeded_settled i r w
        | TrackEvent s => ontrack s w
        | IceCandidateEvent c => onicecandidate c w
        | IceConnectionStateChange st => oniceconnectionstatechange i st w
        end
  end.

(** The reconnect timer [t] fires (it is pending no longer) and its
    callback runs [findPartner]. *)
Definition timer_event (t : nat) (w : World) : World :=
  match timers w !! t with
  | Some tm =>
      if t_pending tm then findPartner (t_env tm) (clearTimeout t w) else w
  | None => w
  end.

Definition step (w : World) (e : Event) : World :=
  match e with
  | EvMediaOk ts => initializeMedia_ok ts w
  | EvMediaError msg => initializeMedia_error msg w
  | EvSocket sid m o => socket_event sid m o w
  | EvPc i ev => pc_event i ev w
  | EvTimer t => timer_event t w
  | ClickFindPartner => click_findPartner w
  | ClickToggleAudio => toggleAudio (snapshot w) w
  | ClickToggleVideo => toggleVideo (snapshot w) w
  end.

Definition run (w : World) (es : list Event) : World := foldl step w es.

(** The state of the first render (lines 47-78). *)
Definition first_render : World :=
  mkWorld (mkStreams None None)
    (mkConn false false None "Initializing..." false 0)
    (mkControls false false) (mkStats 0 0 0)
    [] [] [] [] None None false false None [].

(** The state after the mount effect (lines 408-421) has called
    [initializeSocket], the one of the first render; [initializeMedia]
    settles later as an event. *)
Definition mounted : World := initializeSocket (snapshot first_render) first_render.

Definition reachable (w : World) : Prop := exists es, w = run mounted es.

(** A platform on which every awaited call succeeds, the answer created
    being [a]. *)
Definition all_ok (a : Desc) : Outcome := mkOutcome true true (Some a) true true.

(** The number of ["offer"] messages sent so far. *)
Definition is_offer (p : nat * Payload) : bool :=
  match snd p with EmitOffer _ _ => true | _ => false end.

Definition offers_emitted (w : World) : nat := length (List.filter is_offer (emitted w)).

(** Peer connections that have not been closed. *)
Definition live_handles (w : World) : list PeerConn :=
  List.filter (fun pc => negb (pc_closed pc)) (pcs w).

(** ** Predicates used in the statements *)

(** Every peer connection that is not closed is the one
    [peerConnectionRef] points to. *)
Definition one_handle (w : World) : Prop :=
  forall i pc, pcs w !! i = Some pc -> pc_closed pc = false ->
               peerConnectionRef w = Some i.

Definition keeps_closed (f : PeerConn -> PeerConn) : Prop :=
  forall pc, pc_closed pc = true -> pc_closed (f pc) = true.

(** What [handleDisconnect] leaves behind when it tears down handle [i] of
    state [w]. *)
Definition torn_down (w w' : World) (i : nat) : Prop :=
  peerConnectionRef w' = None
  /\ (pc_closed <$> pcs w' !! i) = Some true
  /\ remoteStream (streams w') = None
  /\ connectionState w' =
       mkConn false false (error (connectionState w)) "Disconnected" false
         (reconnectAttempts (connectionState w))
  /\ emitted w' = emitted w.

(** The handle reference points to a connection that exists and has not
    been closed. *)
Definition ref_live (w : World) : Prop :=
  forall i, peerConnectionRef w = Some i ->
            exists pc, pcs w !! i = Some pc /\ pc_closed pc = false.

(** ** Scenarios

    Event sequences from the mounted state, used as concrete inputs. *)

Definition ok0 : Outcome := all_ok (mkDesc Answer 0).

(** A platform that rejects the remote description. *)
Definition rejects_remote : Outcome := mkOutcome true false None false true.

(** A platform that rejects the candidate. *)
Definition rejects_candidate : Outcome := mkOutcome true true None true false.

(** The socket connects, the user asks for a partner, the relay reports a
    match: the handle 0 is created by the handlers registered at mount. *)
Definition matched : World :=
  run mounted [EvSocket 0 MsgConnect ok0; ClickFindPartner;
               EvSocket 0 (MsgMatch 9) ok0].

Definition matched_pc : PeerConn :=
  mkPC false Stable None None [] [] IceNew (mkCaptured None false 0) 0.

(** [matched] once an offer has been answered: the handle has a remote
    description. *)
Definition answered : World :=
  run matched [EvSocket 0 (MsgOffer 9 (mkDesc Offer 5)) (all_ok (mkDesc Answer 6))].

(** The user asked for a partner and the relay answered ["waiting"]. *)
Definition waiting : World :=
  run mounted [EvSocket 0 MsgConnect ok0; ClickFindPartner;
               EvSocket 0 MsgWaiting ok0].

(** A peer whose handle was created while it held the initiator role.
    Camera and microphone are acquired and a first match made the peer
    initiator; then the first socket dropped, a click on the find-partner
    button created a second socket (whose handlers close over the local
    stream and [isInitiator = true]), and after a further request a match
    arrived on it. *)
Definition initiator_setup : list Event :=
  [EvMediaOk [mkTrack Audio true false; mkTrack Video true false];
   EvSocket 0 MsgConnect ok0;
   ClickFindPartner;
   EvSocket 0 (MsgMatch 9) ok0;
   EvSocket 0 MsgDisconnect ok0;
   ClickFindPartner;
   EvSocket 1 MsgConnect ok0;
   ClickFindPartner;
   EvSocket 1 (MsgMatch 9) ok0].

Definition initiator_env : Captured := mkCaptured (Some [0; 1]) true 0.

Definition initiator_matched : World := run mounted initiator_setup.

(** The initiator's negotiation is suspended at [setLocalDescription]. *)
Definition negotiating : World := run initiator_matched [EvPc 1 NegotiationNeeded].

Definition negotiating_pc : PeerConn :=
  mkPC false Stable None None [0; 1] [] IceNew initiator_env 1.

(** The initiator has sent its offer and waits for the answer. *)
Definition offering : World :=
  run negotiating [EvPc 1 (SetLocalSettled (Some (mkDesc Offer 1)))].

Definition offering_pc : PeerConn :=
  mkPC false HaveLocalOffer (Some (mkDesc Offer 1)) None [0; 1] [] IceNew
    initiator_env 0.

(** Three triggers in a row, then the two pending calls resolve. *)
Definition three_triggers : list Event :=
  [EvPc 1 NegotiationNeeded; EvPc 1 NegotiationNeeded; EvPc 1 NegotiationNeeded].

Definition two_settled : list Event :=
  [EvPc 1 (SetLocalSettled (Some (mkDesc Offer 1)));
   EvPc 1 (SetLocalSettled (Some (mkDesc Offer 2)))].

(** Three rounds of match, ICE failure and timed re-match, then a fourth
    match: the counter has reached the ceiling. *)
Definition three_failures : list Event :=
  [EvSocket 0 MsgConnect ok0;
   ClickFindPartner;
   EvSocket 0 (MsgMatch 9) ok0;
   EvPc 0 (IceConnectionStateChange IceFailed);
   EvTimer 0;
   EvSocket 0 (MsgMatch 9) ok0;
   EvPc 1 (IceConnectionStateChange IceFailed);
   EvTimer 1;
   EvSocket 0 (MsgMatch 9) ok0;
   EvPc 2 (IceConnectionStateChange IceFailed);
   EvTimer 2;
   EvSocket 0 (MsgMatch 9) ok0].

Definition at_ceiling : World := run mounted three_failures.

Definition fourth_failure : World :=
  step at_ceiling (EvPc 3 (IceConnectionStateChange IceFailed)).

(** The peer asks for a partner and is told to wait; its partner's offer
    arrives (this peer got no ["match"]), the offer handler creates the
    handle and answers, and the partner's track arrives. *)
Definition responder_connected : World :=
  run mounted [EvSocket 0 MsgConnect ok0;
               ClickFindPartner;
               EvSocket 0 MsgWaiting ok0;
               EvSocket 0 (MsgOffer 9 (mkDesc Offer 5)) (all_ok (mkDesc Answer 6));
               EvPc 0 (TrackEvent (Some 1))].

(** A matched peer receives the partner's track and then a ["waiting"]
    message. *)
Definition waiting_after_track : World :=
  run mounted [EvSocket 0 MsgConnect ok0;
               ClickFindPartner;
               EvSocket 0 (MsgMatch 9) ok0;
               EvPc 0 (TrackEvent (Some 1));
               EvSocket 0 MsgWaiting ok0].

(** Camera and microphone are acquired before the socket connects; the
    user asks for a partner and the relay reports a match, then a second
    match while the handle of the first is live. *)
Definition media_matched : World :=
  run mounted [EvMediaOk [mkTrack Audio true false; mkTrack Video true false];
               EvSocket 0 MsgConnect ok0;
               ClickFindPartner;
               EvSocket 0 (MsgMatch 9) ok0].

Definition rematched : World := step media_matched (EvSocket 0 (MsgMatch 9) ok0).

(** ** The cleanup of the mount effect *)

(** [track.stop()] on the track [i] of the store. *)
Definition stop_track (ts : list Track) (i : nat) : list Track :=
  match ts !! i with
  | Some t => <[i := mkTrack (kind t) (enabled t) true]> ts
  | None => ts
  end.

(** The function the mount effect returns (lines 413-420), closing over
    [env] and over the socket [initializeSocket] returned. *)
Definition effect_cleanup (env : Captured) (socket : option nat) (w : World) : World :=
  let w1 :=
    match reconnectTimeoutRef w with
    | Some t => clearTimeout t w
    | None => w
    end in
  let w2 :=
    match cap_localStream env with
    | Some ms => set_tracks (fun ts => foldl stop_track ts ms) w1
    | None => w1
    end in
  let w3 := cleanupPeerConnection w2 in
  match socket with
  | Some sid => set_socket_connected sid false w3
  | None => w3
  end.

(** The effect has an empty dependency list: its cleanup is the one of
    the first render, and [socket] is the socket created at mount. *)
Definition unmount (w : World) : World :=
  effect_cleanup (snapshot first_render) (socketRef mounted) w.

(** ** Further predicates *)

(** Every timer of [l] has the reconnect delay, and a pending one is the
    timer [r] points to. *)
Definition timers_wf (l : list Timer) (r : option nat) : Prop :=
  forall t tm, l !! t = Some tm ->
    t_delay tm = RECONNECT_DELAY /\ (t_pending tm = true -> r = Some t).

(** Track [j] is still in the store, with its kind and [ended] flag. *)
Definition tracks_kept (ts ts' : list Track) : Prop :=
  forall j t, ts !! j = Some t ->
    exists t', ts' !! j = Some t' /\ kind t' = kind t /\ ended t' = ended t.

(** A remote stream is held only while [isConnected] is true and a handle
    exists. *)
Definition remote_shown_ok (w : World) : Prop :=
  remoteStream (streams w) <> None ->
  isConnected (connectionState w) = true /\ peerConnectionRef w <> None.

(** The tracks of a stream are distinct and are in the store. *)
Definition stream_wf (ts : list Track) (ms : option MediaStream) : Prop :=
  forall l, ms = Some l -> NoDup l /\ forall j, In j l -> is_Some (ts !! j).

(** The ["offer"] messages of the log. *)
Definition offers (w : World) : list (nat * Payload) :=
  List.filter is_offer (emitted w).

(** A negotiation is pending only on a handle whose callbacks hold the
    initiator role. *)
Definition pending_only_initiator (pc : PeerConn) : Prop :=
  0 < pc_pending pc -> cap_isInitiator (pc_env pc) = true.

(** No callback of the state holds the initiator role: neither the
    handlers of a socket nor the callbacks of a peer connection or timer. *)
Definition socket_not_initiator (s : Socket) : Prop :=
  cap_isInitiator (sock_env s) = false.

Definition pc_not_initiator (pc : PeerConn) : Prop :=
  cap_isInitiator (pc_env pc) = false /\ pc_pending pc = 0.

Definition timer_not_initiator (tm : Timer) : Prop :=
  cap_isInitiator (t_env tm) = false.

Definition never_initiator (w : World) : Prop :=
  Forall pc_not_initiator (pcs w)
  /\ Forall timer_not_initiator (timers w)
  /\ offers w = [].

(** A state in which ICE has failed once on the handle of [matched], so
    that a reconnect timer is pending. *)
Definition retrying : World :=
  run matched [EvPc 0 (IceConnectionStateChange IceFailed)].

(** After [at_ceiling] the socket drops and the user asks for a partner
    again: the new socket's handlers close over the retry count 3, and so
    do the callbacks of the handle the next match creates. *)
Definition ceiling_handle : World :=
  run at_ceiling [EvSocket 0 MsgDisconnect ok0;
                  ClickFindPartner;
                  EvSocket 1 MsgConnect ok0;
                  ClickFindPartner;
                  EvSocket 1 (MsgMatch 9) ok0].

(** A peer with camera and microphone in a call: media acquired, then the
    responder's path of [responder_connected]. *)
Definition in_call : World :=
  run mounted [EvMediaOk [mkTrack Audio true false; mkTrack Video true false];
               EvSocket 0 MsgConnect ok0;
               ClickFindPartner;
               EvSocket 0 (MsgOffer 9 (mkDesc Offer 5)) (all_ok (mkDesc Answer 6));
               EvPc 0 (TrackEvent (Some 1))].

(** ** The text chat ([Chat], lines 565-601 of the second document of
    [VideoChat.tsx])

    A JavaScript string is the list of its UTF-16 code units. *)

Module Chat.

Definition JsString := list N.

(** The code units [String.prototype.trim] removes: the WhiteSpace and
    LineTerminator characters of ECMAScript. *)
Definition is_white_space (c : N) : bool :=
  existsb (N.eqb c)
    [9; 10; 11; 12; 13; 32; 160; 5760; 8232; 8233; 8239; 8287; 12288; 65279]%N
  || (N.leb 8192 c && N.leb c 8202).

Fixpoint trimStart (s : JsString) : JsString :=
  match s with
  | [] => []
  | c :: r => if is_white_space c then trimStart r else s
  end.

Definition trimEnd (s : JsString) : JsString := rev (trimStart (rev s)).

Definition trim (s : JsString) : JsString := trimEnd (trimStart s).

(** [interface Message]; a message the component sends has no [sender]. *)
Record Message := mkMessage {
  text : JsString;
  sender : option nat;
  timestamp : nat
}.

(** The component's state. *)
Record State := mkState {
  messages : list Message;
  inputMessage : JsString
}.

(** [handleChatMessage] (lines 573-575). *)
Definition handleChatMessage (message : Message) (s : State) : State :=
  mkState (messages s ++ [message]) (inputMessage s).

(** [sendMessage] (lines 590-601) with the props [socket] and
    [isConnected]; [now] is the clock reading of [new Date()].  The result
    is the new state and what was emitted on the socket, if anything. *)
Definition sendMessage (socket : option nat) (isConnected : bool) (now : nat)
    (s : State) : State * option (nat * Message) :=
  match trim (inputMessage s), socket with
  | _ :: _, Some sid =>
      if isConnected then
        (mkState (messages s) [],
         Some (sid, mkMessage (inputMessage s) None now))
      else (s, None)
  | _, _ => (s, None)
  end.

(** What happens to a mounted [Chat]: the relay delivers a message (the
    handler is registered only when [socket] is not null, lines 570-582),
    the user edits the input, or submits the form. *)
Inductive Event :=
  | Receive (message : Message)
  | Change (value : JsString)
  | Submit (now : nat).

Definition step (socket : option nat) (isConnected : bool)
    (st : State * list (nat * Message)) (e : Event) : State * list (nat * Message) :=
  let '(s, out) := st in
  match e with
  | Receive m =>
      match socket with
      | Some _ => (handleChatMessage m s, out)
      | None => (s, out)
      end
  | Change v => (mkState (messages s) v, out)
  | Submit now =>
      let '(s', sent) := sendMessage socket isConnected now s in
      (s', out ++ match sent with Some p => [p] | None => [] end)
  end.

Definition run (socket : option nat) (isConnected : bool)
    (st : State * list (nat * Message)) (es : list Event) :=
  foldl (step socket isConnected) st es.

(** The messages the relay delivered, in order. *)
Fixpoint received (es : list Event) : list Message :=
  match es with
  | [] => []
  | Receive m :: r => m :: received r
  | _ :: r => received r
  end.

End Chat.

(** ** Toasts ([ToastProvider], lines 49-60 of [unnamed/part_000]) *)

Module Toast.

Inductive ToastType := Success | Error | Info | Warning.

(** [interface Toast] *)
Record Toast := mkToast {
  id : string;
  type : ToastType;
  title : string;
  description : option string
}.

(** The [toasts] state, and the identifiers whose auto-remove timer is
    pending. *)
Record State := mkState {
  toasts : list Toast;
  pending : list string
}.

(** [removeToast] (lines 58-60). *)
Definition removeToast (i : string) (s : State) : State :=
  mkState (List.filter (fun t => negb (String.eqb (id t) i)) (toasts s)) (pending s).

(** [addToast] (lines 52-56); [i] is the identifier drawn from
    [Math.random()].  A timer is armed that runs [removeToast i] after 5
    seconds. *)
Definition addToast (i : string) (ty : ToastType) (ti : string)
    (de : option string) (s : State) : State :=
  mkState (toasts s ++ [mkToast i ty ti de]) (pending s ++ [i]).

(** The [k]-th pending timer fires: [removeToast] runs with its
    identifier. *)
Definition fire (k : nat) (s : State) : State :=
  match pending s !! k with
  | Some i => removeToast i (mkState (toasts s) (delete k (pending s)))
  | None => s
  end.

Inductive Event :=
  | Add (i : string) (ty : ToastType) (ti : string) (de : option string)
  | Dismiss (i : string)
  | Fire (k : nat).

Definition step (s : State) (e : Event) : State :=
  match e with
  | Add i ty ti de => addToast i ty ti de s
  | Dismiss i => removeToast i s
  | Fire k => fire k s
  end.

Definition run (s : State) (es : list Event) : State := foldl step s es.

Definition initial : State := mkState [] [].

(** Every pending timer fires, oldest first. *)
Definition fire_all (s : State) : State :=
  foldl (fun s' i => removeToast i s') (mkState (toasts s) []) (pending s).

End Toast.

(** Every toast shown has its auto-remove timer pending. *)
Definition toast_timers_ok (s : Toast.State) : Prop :=
  forall t, In t (Toast.toasts s) -> In (Toast.id t) (Toast.pending s).

(** * Properties *)

(** Closes a conjunction of closed equations by evaluation. *)
Ltac eval_conj :=
  repeat match goal with |- _ /\ _ => split end; vm_compute; reflexivity.

(** ** Reachable states *)

Lemma run_app (w : World) (es1 es2 : list Event) :
  run w (es1 ++ es2) = run (run w es1) es2.
Proof. apply foldl_app. Qed.

Lemma reachable_run (w : World) (es : list Event) :
  reachable w -> reachable (run w es).
Proof. intros [es0 ->]. exists (es0 ++ es). symmetry. apply run_app. Qed.

Lemma reachable_mounted : reachable mounted.
Proof. exists []. reflexivity. Qed.

Lemma reachable_matched : reachable matched.
Proof. apply reachable_run, reachable_mounted. Qed.

Lemma reachable_negotiating : reachable negotiating.
Proof. do 2 apply reachable_run. apply reachable_mounted. Qed.

Lemma reachable_offering : reachable offering.
Proof. apply reachable_run, reachable_negotiating. Qed.

Lemma reachable_at_ceiling : reachable at_ceiling.
Proof. apply reachable_run, reachable_mounted. Qed.

(** ** Teardown of the handle *)

Lemma cleanupPeerConnection_ref (w : World) :
  peerConnectionRef (cleanupPeerConnection w) = None.
Proof. unfold cleanupPeerConnection. by destruct (peerConnectionRef w) eqn:E. Qed.

Lemma cleanupPeerConnection_emitted (w : World) :
  emitted (cleanupPeerConnection w) = emitted w.
Proof. unfold cleanupPeerConnection. destruct (peerConnectionRef w); reflexivity. Qed.

Lemma cleanupPeerConnection_connectionState (w : World) :
  connectionState (cleanupPeerConnection w) = connectionState w.
Proof. unfold cleanupPeerConnection. destruct (peerConnectionRef w); reflexivity. Qed.

Lemma cleanupPeerConnection_tracks (w : World) :
  tracks (cleanupPeerConnection w) = tracks w.
Proof. unfold cleanupPeerConnection. destruct (peerConnectionRef w); reflexivity. Qed.

Lemma cleanupPeerConnection_localStream (w : World) :
  localStream (streams (cleanupPeerConnection w)) = localStream (streams w).
Proof. unfold cleanupPeerConnection. destruct (peerConnectionRef w); reflexivity. Qed.

Lemma cleanupPeerConnection_remoteStream (w : World) :
  remoteStream (streams (cleanupPeerConnection w)) = None.
Proof. unfold cleanupPeerConnection. destruct (peerConnectionRef w); reflexivity. Qed.

Lemma cleanupPeerConnection_flags (w : World) :
  isNegotiatingRef (cleanupPeerConnection w) = isNegotiatingRef w
  /\ makingOfferRef (cleanupPeerConnection w) = makingOfferRef w.
Proof.
  unfold cleanupPeerConnection. destruct (peerConnectionRef w); split; reflexivity.
Qed.

(** C10. [cleanupPeerConnection] is a total function of the state; after
    one call the handle reference and the remote stream are both null; a
    second call changes nothing; and a call never changes the local
    stream, its tracks, or the connection status. *)
Theorem cleanupPeerConnection_idempotent (w : World) :
  let w1 := cleanupPeerConnection w in
  peerConnectionRef w1 = None
  /\ remoteStream (streams w1) = None
  /\ cleanupPeerConnection w1 = w1
  /\ localStream (streams w1) = localStream (streams w)
  /\ tracks w1 = tracks w
  /\ connectionState w1 = connectionState w
  /\ controls w1 = controls w.
Proof.
  intros w1. subst w1. unfold cleanupPeerConnection.
  destruct w as [st cs ct sa tr ps so ti [i|] sr ng mo rt em]; simpl;
    repeat split; reflexivity.
Qed.

(** ** Muting *)

Lemma flip_enabled_lookup (ts : list Track) (i j : nat) :
  flip_enabled ts i !! j =
    if decide (i = j)
    then (fun t => mkTrack (kind t) (negb (enabled t)) (ended t)) <$> ts !! j
    else ts !! j.
Proof.
  unfold flip_enabled. destruct (decide (i = j)) as [->|Hne].
  - destruct (ts !! j) as [t|] eqn:E; simpl.
    + apply list_lookup_insert_eq. eapply lookup_lt_Some; eauto.
    + exact E.
  - destruct (ts !! i); [by apply list_lookup_insert_ne | reflexivity].
Qed.

Lemma flip_enabled_involutive (ts : list Track) (i : nat) :
  flip_enabled (flip_enabled ts i) i = ts.
Proof.
  apply list_eq. intros j. rewrite !flip_enabled_lookup.
  destruct (decide (i = j)); [|reflexivity].
  destruct (ts !! j) as [[k b d]|]; simpl; [|reflexivity].
  by rewrite negb_involutive.
Qed.

Lemma flip_enabled_comm (ts : list Track) (i j : nat) :
  flip_enabled (flip_enabled ts i) j = flip_enabled (flip_enabled ts j) i.
Proof.
  apply list_eq. intros k. rewrite !flip_enabled_lookup.
  destruct (decide (j = k)), (decide (i = k)); reflexivity.
Qed.

Lemma foldl_flip_enabled_comm (l : list nat) (ts : list Track) (i : nat) :
  foldl flip_enabled (flip_enabled ts i) l = flip_enabled (foldl flip_enabled ts l) i.
Proof.
  revert ts. induction l as [|a l IH]; intros ts; simpl; [reflexivity|].
  rewrite <- IH. f_equal. apply flip_enabled_comm.
Qed.

Lemma foldl_flip_enabled_twice (l : list nat) (ts : list Track) :
  foldl flip_enabled (foldl flip_enabled ts l) l = ts.
Proof.
  revert ts. induction l as [|a l IH]; intros ts; simpl; [reflexivity|].
  rewrite foldl_flip_enabled_comm, IH. apply flip_enabled_involutive.
Qed.

(** Flipping [enabled] changes neither the kind of a track nor whether it
    has ended. *)
Lemma foldl_flip_enabled_kind (l : list nat) (ts : list Track) (j : nat) :
  (kind <$> foldl flip_enabled ts l !! j) = (kind <$> ts !! j)
  /\ (ended <$> foldl flip_enabled ts l !! j) = (ended <$> ts !! j).
Proof.
  revert ts. induction l as [|a l IH]; intros ts; simpl; [auto|].
  destruct (IH (flip_enabled ts a)) as [Hk He]. rewrite Hk, He.
  rewrite flip_enabled_lookup. destruct (decide (a = j)); [|auto].
  destruct (ts !! j); auto.
Qed.

Lemma getTracksOfKind_flipped (k : TrackKind) (l ms : list nat) (ts : list Track) :
  getTracksOfKind k (foldl flip_enabled ts l) ms = getTracksOfKind k ts ms.
Proof.
  unfold getTracksOfKind. induction ms as [|i ms IH]; simpl; [reflexivity|].
  rewrite IH. destruct (foldl_flip_enabled_kind l ts i) as [Hk _].
  destruct (foldl flip_enabled ts l !! i) as [t'|], (ts !! i) as [t|];
    simpl in Hk; try discriminate; [|reflexivity].
  injection Hk as ->. reflexivity.
Qed.

(** C9. Whatever stream [toggleAudio] holds, two calls put the track store
    (hence every audio track's [enabled] flag) back as it was; and a
    single call ends no track, sends nothing, and leaves the negotiation
    flags, the peer connections, the handle reference, the connection
    status and the streams as they were, so that the next click sees the
    same local stream. *)
Theorem toggleAudio_twice (env : Captured) (w : World) :
  let w1 := toggleAudio env w in
  tracks (toggleAudio env w1) = tracks w
  /\ (forall j, (ended <$> tracks w1 !! j) = (ended <$> tracks w !! j))
  /\ emitted w1 = emitted w
  /\ isNegotiatingRef w1 = isNegotiatingRef w
  /\ makingOfferRef w1 = makingOfferRef w
  /\ pcs w1 = pcs w
  /\ peerConnectionRef w1 = peerConnectionRef w
  /\ connectionState w1 = connectionState w
  /\ streams w1 = streams w
  /\ snapshot w1 = snapshot w.
Proof.
  intros w1. subst w1. unfold toggleAudio.
  destruct (cap_localStream env) as [ms|]; simpl.
  - split.
    + rewrite getTracksOfKind_flipped. apply foldl_flip_enabled_twice.
    + split; [|repeat split; reflexivity].
      intros j. apply foldl_flip_enabled_kind.
  - repeat split; reflexivity.
Qed.

(** ** At most one handle *)

Arguments cleanupPeerConnection : simpl never.
Arguments handleDisconnect : simpl never.
Arguments update_pc : simpl never.

Lemma update_pc_lookup (i j : nat) (f : PeerConn -> PeerConn) (w : World) :
  pcs (update_pc i f w) !! j =
    if decide (i = j) then f <$> pcs w !! j else pcs w !! j.
Proof.
  unfold update_pc; simpl. destruct (decide (i = j)) as [->|Hne].
  - destruct (pcs w !! j) as [pc|] eqn:E; simpl.
    + apply list_lookup_insert_eq. eapply lookup_lt_Some; eauto.
    + exact E.
  - destruct (pcs w !! i); [by apply list_lookup_insert_ne | reflexivity].
Qed.

Lemma update_pc_length (i : nat) (f : PeerConn -> PeerConn) (w : World) :
  length (pcs (update_pc i f w)) = length (pcs w).
Proof.
  unfold update_pc; simpl. destruct (pcs w !! i); [apply length_insert|reflexivity].
Qed.

Lemma one_handle_update_pc (i : nat) (f : PeerConn -> PeerConn) (w : World) :
  keeps_closed f -> one_handle w -> one_handle (update_pc i f w).
Proof.
  intros Hf Hw j pc Hj Hc. rewrite update_pc_lookup in Hj.
  change (peerConnectionRef (update_pc i f w)) with (peerConnectionRef w).
  destruct (decide (i = j)) as [->|Hne]; [|eauto].
  destruct (pcs w !! j) as [pc0|] eqn:E; simpl in Hj; [|discriminate].
  injection Hj as <-. apply (Hw j pc0 E).
  destruct (pc_closed pc0) eqn:Hc0; [|reflexivity].
  rewrite (Hf pc0 Hc0) in Hc. discriminate.
Qed.

(** A step that changes neither the connections nor the reference. *)
Lemma one_handle_frame (w w' : World) :
  pcs w' = pcs w -> peerConnectionRef w' = peerConnectionRef w ->
  one_handle w -> one_handle w'.
Proof. intros Hp Hr Hw i pc. rewrite Hp, Hr. apply Hw. Qed.

Lemma keeps_closed_apply_local d : keeps_closed (apply_local d).
Proof. intros pc H. exact H. Qed.
Lemma keeps_closed_apply_remote d : keeps_closed (apply_remote d).
Proof. intros pc H. exact H. Qed.
Lemma keeps_closed_set_ice s : keeps_closed (pc_set_ice s).
Proof. intros pc H. exact H. Qed.
Lemma keeps_closed_set_pending n : keeps_closed (pc_set_pending n).
Proof. intros pc H. exact H. Qed.
Lemma keeps_closed_add_candidate c : keeps_closed (pc_add_candidate c).
Proof. intros pc H. exact H. Qed.
Lemma keeps_closed_set_closed : keeps_closed pc_set_closed.
Proof. intros pc H. reflexivity. Qed.

Create HintDb handle.
#[local] Hint Resolve keeps_closed_apply_local keeps_closed_apply_remote
  keeps_closed_set_ice keeps_closed_set_pending keeps_closed_add_candidate
  keeps_closed_set_closed one_handle_update_pc : handle.

(** After [cleanupPeerConnection] no connection is live. *)
Lemma cleanupPeerConnection_all_closed (w : World) :
  one_handle w ->
  forall i pc, pcs (cleanupPeerConnection w) !! i = Some pc -> pc_closed pc = true.
Proof.
  intros Hw i pc. unfold cleanupPeerConnection.
  destruct (peerConnectionRef w) as [r|] eqn:Hr; simpl.
  - change (pcs (update_pc r pc_set_closed w) !! i = Some pc -> pc_closed pc = true).
    rewrite update_pc_lookup. destruct (decide (r = i)) as [->|Hne].
    + destruct (pcs w !! i); simpl; [|discriminate]. by intros [= <-].
    + intros Hi. destruct (pc_closed pc) eqn:Hc; [reflexivity|].
      specialize (Hw i pc Hi Hc). congruence.
  - intros Hi. destruct (pc_closed pc) eqn:Hc; [reflexivity|].
    specialize (Hw i pc Hi Hc). congruence.
Qed.

Lemma one_handle_cleanupPeerConnection (w : World) :
  one_handle w -> one_handle (cleanupPeerConnection w).
Proof.
  intros Hw i pc Hi Hc.
  rewrite (cleanupPeerConnection_all_closed w Hw i pc Hi) in Hc. discriminate.
Qed.

Lemma one_handle_handleDisconnect (w : World) :
  one_handle w -> one_handle (handleDisconnect w).
Proof.
  intros Hw. unfold handleDisconnect.
  eapply one_handle_frame; [| |apply one_handle_cleanupPeerConnection, Hw];
    reflexivity.
Qed.

Lemma one_handle_createPeerConnection (env : Captured) (ok : bool) (w : World) :
  one_handle w -> one_handle (snd (createPeerConnection env ok w)).
Proof.
  intros Hw. unfold createPeerConnection. destruct ok; cbn.
  - intros i pc Hi Hc. cbn in Hi.
    destruct (decide (i < length (pcs (cleanupPeerConnection w)))) as [Hlt|Hge].
    + rewrite lookup_app_l in Hi by exact Hlt.
      rewrite (cleanupPeerConnection_all_closed w Hw i pc Hi) in Hc. discriminate.
    + assert (i = length (pcs (cleanupPeerConnection w))) as ->; [|reflexivity].
      apply lookup_lt_Some in Hi. rewrite length_app in Hi. cbn in Hi. lia.
  - eapply one_handle_frame; [| |apply one_handle_cleanupPeerConnection, Hw];
      reflexivity.
Qed.

(** The remaining state updates touch neither the connections nor the
    reference to the current one. *)
Lemma one_handle_set_streams f w : one_handle w -> one_handle (set_streams f w).
Proof. exact id. Qed.
Lemma one_handle_setConnectionState f w : one_handle w -> one_handle (setConnectionState f w).
Proof. exact id. Qed.
Lemma one_handle_setControls f w : one_handle w -> one_handle (setControls f w).
Proof. exact id. Qed.
Lemma one_handle_setStats s w : one_handle w -> one_handle (setStats s w).
Proof. exact id. Qed.
Lemma one_handle_set_tracks f w : one_handle w -> one_handle (set_tracks f w).
Proof. exact id. Qed.
Lemma one_handle_set_sockets f w : one_handle w -> one_handle (set_sockets f w).
Proof. exact id. Qed.
Lemma one_handle_set_timers f w : one_handle w -> one_handle (set_timers f w).
Proof. exact id. Qed.
Lemma one_handle_set_socketRef r w : one_handle w -> one_handle (set_socketRef r w).
Proof. exact id. Qed.
Lemma one_handle_set_isNegotiatingRef b w : one_handle w -> one_handle (set_isNegotiatingRef b w).
Proof. exact id. Qed.
Lemma one_handle_set_makingOfferRef b w : one_handle w -> one_handle (set_makingOfferRef b w).
Proof. exact id. Qed.
Lemma one_handle_set_reconnectTimeoutRef r w : one_handle w -> one_handle (set_reconnectTimeoutRef r w).
Proof. exact id. Qed.
Lemma one_handle_emit sid p w : one_handle w -> one_handle (emit sid p w).
Proof. exact id. Qed.

#[local] Hint Resolve one_handle_set_streams one_handle_setConnectionState
  one_handle_setControls one_handle_setStats one_handle_set_tracks
  one_handle_set_sockets one_handle_set_timers one_handle_set_socketRef
  one_handle_set_isNegotiatingRef one_handle_set_makingOfferRef
  one_handle_set_reconnectTimeoutRef one_handle_emit
  one_handle_cleanupPeerConnection one_handle_handleDisconnect
  one_handle_createPeerConnection : handle.

(** Splits on every test a handler makes, then closes each branch with the
    lemmas above. *)
Ltac handle_cases :=
  repeat first
    [ assumption
    | match goal with
      | |- one_handle (match ?x with _ => _ end) => destruct x eqn:?
      | |- one_handle (if ?x then _ else _) => destruct x eqn:?
      end
    | simple apply one_handle_set_streams
    | simple apply one_handle_setConnectionState
    | simple apply one_handle_setControls
    | simple apply one_handle_setStats
    | simple apply one_handle_set_tracks
    | simple apply one_handle_set_sockets
    | simple apply one_handle_set_timers
    | simple apply one_handle_set_socketRef
    | simple apply one_handle_set_isNegotiatingRef
    | simple apply one_handle_set_makingOfferRef
    | simple apply one_handle_set_reconnectTimeoutRef
    | simple apply one_handle_emit
    | simple apply one_handle_cleanupPeerConnection
    | simple apply one_handle_handleDisconnect
    | simple apply one_handle_createPeerConnection
    | simple apply one_handle_update_pc; [solve [auto with handle]|] ];
  auto 12 with handle.

Lemma one_handle_initializeSocket env w : one_handle w -> one_handle (initializeSocket env w).
Proof. intros H. unfold initializeSocket. handle_cases. Qed.

Lemma one_handle_findPartner env w : one_handle w -> one_handle (findPartner env w).
Proof.
  intros H. unfold findPartner.
  pose proof (one_handle_initializeSocket env w H). handle_cases.
Qed.

Lemma one_handle_clearTimeout t w : one_handle w -> one_handle (clearTimeout t w).
Proof. exact id. Qed.

#[local] Hint Resolve one_handle_initializeSocket one_handle_findPartner
  one_handle_clearTimeout : handle.

Lemma one_handle_onnegotiationneeded i w :
  one_handle w -> one_handle (onnegotiationneeded i w).
Proof. intros H. unfold onnegotiationneeded, release_flags. handle_cases. Qed.

Lemma one_handle_onnegotiationneeded_settled i r w :
  one_handle w -> one_handle (onnegotiationneeded_settled i r w).
Proof.
  intros H. unfold onnegotiationneeded_settled, release_flags.
  destruct (pcs w !! i); [|exact H]. destruct (pc_pending p); [exact H|].
  destruct r; cbn zeta; handle_cases.
Qed.

Lemma one_handle_oniceconnectionstatechange i st w :
  one_handle w -> one_handle (oniceconnectionstatechange i st w).
Proof.
  intros H. unfold oniceconnectionstatechange, setTimeout_findPartner.
  destruct (pcs w !! i); [|exact H]. cbn zeta.
  destruct st; handle_cases.
Qed.

Lemma one_handle_on_offer sid env peerId offer o w :
  one_handle w -> one_handle (on_offer sid env peerId offer o w).
Proof.
  intros H. unfold on_offer.
  assert (one_handle (snd (current_or_create env o w))) as H1.
  { unfold current_or_create. destruct (peerConnectionRef w); cbn [snd]; auto with handle. }
  destruct (current_or_create env o w) as [r w1]. cbn [snd] in H1.
  handle_cases.
Qed.

Lemma one_handle_socket_event sid m o w :
  one_handle w -> one_handle (socket_event sid m o w).
Proof.
  intros H. unfold socket_event.
  destruct (sockets w !! sid) as [s|]; [|exact H].
  pose proof (one_handle_on_offer sid (sock_env s)) as Hoffer.
  destruct m; cbn zeta;
    unfold on_connect_error, on_connect, set_socket_connected, on_match,
      on_answer, on_ice_candidate, on_partner_left, on_waiting;
    handle_cases.
Qed.

Lemma one_handle_pc_event i ev w : one_handle w -> one_handle (pc_event i ev w).
Proof.
  intros H. unfold pc_event.
  pose proof (one_handle_onnegotiationneeded i w H).
  pose proof (fun r => one_handle_onnegotiationneeded_settled i r w H).
  pose proof (fun st => one_handle_oniceconnectionstatechange i st w H).
  unfold ontrack, onicecandidate. handle_cases.
Qed.

Lemma one_handle_step w e : one_handle w -> one_handle (step w e).
Proof.
  intros H. destruct e; cbn [step].
  - exact H.
  - exact H.
  - by apply one_handle_socket_event.
  - by apply one_handle_pc_event.
  - unfold timer_event. handle_cases.
  - unfold click_findPartner. handle_cases.
  - unfold toggleAudio. handle_cases.
  - unfold toggleVideo. handle_cases.
Qed.

Lemma one_handle_run es w : one_handle w -> one_handle (run w es).
Proof.
  revert w. induction es as [|e es IH]; intros w H; [exact H|].
  apply IH, one_handle_step, H.
Qed.

Lemma one_handle_mounted : one_handle mounted.
Proof. intros i pc Hi. destruct i; discriminate Hi. Qed.

(** A list in which any two elements satisfying [p] sit at the same index
    has at most one such element. *)
Lemma filter_at_most_one {A} (p : A -> bool) (l : list A) :
  (forall i j x y, l !! i = Some x -> l !! j = Some y ->
                   p x = true -> p y = true -> i = j) ->
  length (List.filter p l) <= 1.
Proof.
  induction l as [|a l IH]; intros H; simpl; [lia|].
  destruct (p a) eqn:Ha; simpl.
  - assert (List.filter p l = []) as ->; [|simpl; lia].
    destruct (List.filter p l) as [|y l'] eqn:Hf; [reflexivity|exfalso].
    assert (In y (List.filter p l)) as Hy by (rewrite Hf; left; reflexivity).
    apply filter_In in Hy as [Hy Hpy].
    apply list_elem_of_In, list_elem_of_lookup in Hy as [j Hj].
    specialize (H 0 (S j) a y eq_refl Hj Ha Hpy). discriminate.
  - apply IH. intros i j x y Hi Hj Hx Hy.
    specialize (H (S i) (S j) x y Hi Hj Hx Hy). lia.
Qed.

Lemma one_handle_live (w : World) : one_handle w -> length (live_handles w) <= 1.
Proof.
  intros H. apply filter_at_most_one. intros i j x y Hi Hj Hx Hy.
  apply negb_true_iff in Hx, Hy.
  pose proof (H i x Hi Hx) as Ei. pose proof (H j y Hj Hy) as Ej. congruence.
Qed.

Lemma all_closed_no_live (l : list PeerConn) :
  (forall i pc, l !! i = Some pc -> pc_closed pc = true) ->
  List.filter (fun pc => negb (pc_closed pc)) l = [].
Proof.
  induction l as [|a l IH]; intros H; simpl; [reflexivity|].
  rewrite (H 0 a eq_refl). simpl. apply IH. intros i pc Hi. apply (H (S i) pc Hi).
Qed.

Lemma reachable_one_handle (w : World) : reachable w -> one_handle w.
Proof. intros [es ->]. apply one_handle_run, one_handle_mounted. Qed.

(** C3. A second ["match"] arrives while the handle of the first is
    live, after camera and microphone have been acquired.  The old handle
    is closed first, the remote stream is null, the local stream and its
    tracks are untouched, and the new handle is the only live one.  But
    no local track is attached to it, nor was any to the first handle:
    the handlers registered at mount call the [createPeerConnection] of
    the first render, whose [streams.localStream] is null, so the test of
    line 136 fails although the component holds a local stream with two
    live tracks.  The [createPeerConnection] of the current render would
    have attached both. *)
Theorem rematch_attaches_no_tracks :
  reachable media_matched
  /\ localStream (streams media_matched) = Some [0; 1]
  /\ tracks media_matched = [mkTrack Audio true false; mkTrack Video true false]
  /\ (sock_env <$> sockets media_matched !! 0) = Some (mkCaptured None false 0)
  /\ peerConnectionRef media_matched = Some 0
  /\ pcs media_matched = [matched_pc]
  /\ pc_senders matched_pc = []
  /\ rematched = on_match (mkCaptured None false 0) ok0 media_matched
  /\ pcs rematched = [pc_set_closed matched_pc; matched_pc]
  /\ peerConnectionRef rematched = Some 1
  /\ live_handles rematched = [matched_pc]
  /\ remoteStream (streams rematched) = None
  /\ localStream (streams rematched) = Some [0; 1]
  /\ tracks rematched = tracks media_matched
  /\ cap_localStream (snapshot media_matched) = Some [0; 1]
  /\ (pc_senders
        <$> pcs (snd (createPeerConnection (snapshot media_matched) true
                        media_matched)) !! 1)
     = Some [0; 1].
Proof. split; [apply reachable_run, reachable_mounted|]. eval_conj. Qed.

(** ** Stale signaling events *)

Lemma handleDisconnect_ref (w : World) : peerConnectionRef (handleDisconnect w) = None.
Proof. apply cleanupPeerConnection_ref. Qed.

Lemma handleDisconnect_emitted (w : World) : emitted (handleDisconnect w) = emitted w.
Proof. apply cleanupPeerConnection_emitted. Qed.

Lemma handleDisconnect_connectionState (w : World) :
  connectionState (handleDisconnect w) =
    mkConn false false (error (connectionState w)) "Disconnected" false
      (reconnectAttempts (connectionState w)).
Proof.
  unfold handleDisconnect. cbn. rewrite cleanupPeerConnection_connectionState.
  reflexivity.
Qed.

Lemma handleDisconnect_remoteStream (w : World) :
  remoteStream (streams (handleDisconnect w)) = None.
Proof. apply cleanupPeerConnection_remoteStream. Qed.

(** [handleDisconnect] closes the current handle. *)
Lemma handleDisconnect_closes (w : World) (i : nat) (pc : PeerConn) :
  peerConnectionRef w = Some i -> pcs w !! i = Some pc ->
  pcs (handleDisconnect w) !! i = Some (pc_set_closed pc).
Proof.
  intros Hr Hi.
  change (pcs (handleDisconnect w)) with (pcs (cleanupPeerConnection w)).
  unfold cleanupPeerConnection. rewrite Hr.
  change (pcs (update_pc i pc_set_closed w) !! i = Some (pc_set_closed pc)).
  rewrite update_pc_lookup, decide_True by reflexivity. rewrite Hi. reflexivity.
Qed.

(** C7. An answer that arrives while no handle exists changes nothing;
    with a handle it is applied as the remote description.  A candidate
    that arrives while no handle exists, or while the handle has no remote
    description, changes nothing (it is stored nowhere); with a handle
    that has a remote description it is added to the connection, and a
    rejection of the candidate by the platform changes nothing either. *)
Theorem stale_events_dropped (w : World) (o : Outcome) :
  (forall answer, peerConnectionRef w = None -> on_answer answer o w = w)
  /\ (forall answer i pc,
        peerConnectionRef w = Some i -> pcs w !! i = Some pc ->
        setRemote_ok o = true ->
        on_answer answer o w = update_pc i (apply_remote answer) w
        /\ pcs (on_answer answer o w) !! i = Some (apply_remote answer pc)
        /\ pc_remoteDescription (apply_remote answer pc) = Some answer)
  /\ (forall c, peerConnectionRef w = None -> on_ice_candidate c o w = w)
  /\ (forall c i,
        peerConnectionRef w = Some i ->
        pcs w !! i ≫= pc_remoteDescription = None ->
        on_ice_candidate c o w = w)
  /\ (forall c i pc d,
        peerConnectionRef w = Some i -> pcs w !! i = Some pc ->
        pc_remoteDescription pc = Some d -> addIce_ok o = true ->
        on_ice_candidate c o w = update_pc i (pc_add_candidate c) w
        /\ pcs (on_ice_candidate c o w) !! i = Some (pc_add_candidate c pc))
  /\ (forall c, addIce_ok o = false -> on_ice_candidate c o w = w).
Proof.
  split; [|split; [|split; [|split; [|split]]]].
  - intros answer Hr. unfold on_answer. rewrite Hr. reflexivity.
  - intros answer i pc Hr Hi Hok. unfold on_answer. rewrite Hr, Hok. cbn [negb].
    split; [reflexivity|]. split; [|reflexivity].
    rewrite update_pc_lookup, decide_True by reflexivity. rewrite Hi. reflexivity.
  - intros c Hr. unfold on_ice_candidate. rewrite Hr. reflexivity.
  - intros c i Hr Hd. unfold on_ice_candidate. rewrite Hr, Hd. reflexivity.
  - intros c i pc d Hr Hi Hd Hok. unfold on_ice_candidate.
    rewrite Hr, Hi. cbn. rewrite Hd, Hok. split; [reflexivity|].
    rewrite update_pc_lookup, decide_True by reflexivity. rewrite Hi. reflexivity.
  - intros c Hok. unfold on_ice_candidate. rewrite Hok.
    destruct (peerConnectionRef w) as [i|]; [|reflexivity].
    by destruct (pcs w !! i ≫= pc_remoteDescription).
Qed.

Lemma stale_events_dropped_witness :
  on_answer (mkDesc Answer 4) ok0 mounted = mounted
  /\ pcs (on_answer (mkDesc Answer 4) ok0 matched) !! 0
     = Some (apply_remote (mkDesc Answer 4) matched_pc)
  /\ on_ice_candidate 5 ok0 mounted = mounted
  /\ on_ice_candidate 5 ok0 matched = matched
  /\ pcs (on_ice_candidate 5 ok0 answered) !! 0
     = Some (pc_add_candidate 5
               (apply_local (mkDesc Answer 6)
                  (apply_remote (mkDesc Offer 5) matched_pc)))
  /\ on_ice_candidate 5 rejects_candidate answered = answered.
Proof.
  destruct (stale_events_dropped mounted ok0) as (H1 & _ & H3 & _).
  destruct (stale_events_dropped matched ok0) as (_ & H2 & _ & H4 & _).
  destruct (stale_events_dropped answered ok0) as (_ & _ & _ & _ & H5 & _).
  destruct (stale_events_dropped answered rejects_candidate)
    as (_ & _ & _ & _ & _ & H6).
  split; [apply H1; reflexivity|].
  split; [apply (H2 (mkDesc Answer 4) 0 matched_pc); reflexivity|].
  split; [apply H3; reflexivity|].
  split; [apply (H4 5 0); reflexivity|].
  split; [apply (H5 5 0 _ (mkDesc Offer 5)); reflexivity|].
  apply (H6 5). reflexivity.
Defined.

(** ** Case analysis over the handlers *)

Ltac unfold_handlers :=
  unfold socket_event, pc_event, timer_event, click_findPartner,
    on_connect_error, on_connect, on_match, on_offer, current_or_create,
    on_answer, on_ice_candidate, on_partner_left, on_waiting,
    onnegotiationneeded, onnegotiationneeded_settled, release_flags,
    ontrack, onicecandidate, oniceconnectionstatechange,
    setTimeout_findPartner, findPartner, initializeSocket,
    createPeerConnection, handleDisconnect, cleanupPeerConnection,
    toggleAudio, toggleVideo, initializeMedia_ok, initializeMedia_error,
    set_socket_connected, socket_connected, clearTimeout, update_pc, emit in *.

(** Splits on a test whose scrutinee contains no other test, so that the
    innermost tests are decided first. *)
Ltac break_match :=
  match goal with
  | |- context [match ?x with _ => _ end] =>
      lazymatch x with
      | context [match _ with _ => _ end] => fail
      | _ => destruct x eqn:?
      end
  end.

Ltac use_eqn :=
  match goal with
  | H : ?x = _ |- context [match ?x with _ => _ end] => rewrite H
  end.

Ltac crush_step := repeat (cbn; first [use_eqn | break_match]); cbn.

(** Induction over the events of a run. *)
Lemma run_invariant (P : World -> Prop) :
  (forall w e, P w -> P (step w e)) ->
  forall es w, P w -> P (run w es).
Proof.
  intros Hstep es. induction es as [|e es IH]; intros w H; [exact H|].
  apply IH, Hstep, H.
Qed.

Lemma reachable_invariant (P : World -> Prop) :
  P mounted -> (forall w e, reachable w -> P w -> P (step w e)) ->
  forall w, reachable w -> P w.
Proof.
  intros H0 Hstep w [es ->].
  enough (reachable (run mounted es) /\ P (run mounted es)) as [_ H] by exact H.
  apply (run_invariant (fun w => reachable w /\ P w)).
  - intros w e [Hr Hp]. split; [|by apply Hstep].
    apply (reachable_run w [e] Hr).
  - split; [apply reachable_mounted | exact H0].
Qed.

(** The handlers, with the updates of peer connections left folded. *)
Ltac unfold_handlers_pcs :=
  unfold socket_event, pc_event, timer_event, click_findPartner,
    on_connect_error, on_connect, on_match, on_offer, current_or_create,
    on_answer, on_ice_candidate, on_partner_left, on_waiting,
    onnegotiationneeded, onnegotiationneeded_settled, release_flags,
    ontrack, onicecandidate, oniceconnectionstatechange,
    setTimeout_findPartner, findPartner, initializeSocket,
    createPeerConnection,
    toggleAudio, toggleVideo, initializeMedia_ok, initializeMedia_error,
    set_socket_connected, socket_connected, clearTimeout, emit in *.

(** ** Failures while negotiating *)

Lemma createPeerConnection_emitted env ok w :
  emitted (snd (createPeerConnection env ok w)) = emitted w.
Proof.
  unfold createPeerConnection. destruct ok; cbn; apply cleanupPeerConnection_emitted.
Qed.

Lemma current_or_create_frame env o w :
  emitted (snd (current_or_create env o w)) = emitted w
  /\ makingOfferRef (snd (current_or_create env o w)) = makingOfferRef w.
Proof.
  unfold current_or_create. destruct (peerConnectionRef w); [split; reflexivity|].
  split; [apply createPeerConnection_emitted|].
  unfold createPeerConnection. destruct (ctor_ok o); cbn;
    apply cleanupPeerConnection_flags.
Qed.

Lemma handleDisconnect_torn_down (w : World) (i : nat) (pc : PeerConn) :
  peerConnectionRef w = Some i -> pcs w !! i = Some pc ->
  torn_down w (handleDisconnect w) i.
Proof.
  intros Hr Hi. unfold torn_down.
  rewrite handleDisconnect_ref, handleDisconnect_remoteStream,
    handleDisconnect_connectionState, handleDisconnect_emitted,
    (handleDisconnect_closes w i pc Hr Hi).
  repeat split; reflexivity.
Qed.

Lemma cleanupPeerConnection_length (w : World) :
  length (pcs (cleanupPeerConnection w)) = length (pcs w).
Proof.
  unfold cleanupPeerConnection. destruct (peerConnectionRef w) as [i|]; [|reflexivity].
  exact (update_pc_length i pc_set_closed w).
Qed.

(** The handle reference is only ever set to a fresh connection, and it is
    cleared whenever that connection is closed. *)
Lemma update_pc_ref (i : nat) (f : PeerConn -> PeerConn) (w : World) :
  peerConnectionRef (update_pc i f w) = peerConnectionRef w.
Proof. reflexivity. Qed.

Lemma ref_live_step (w : World) (e : Event) : ref_live w -> ref_live (step w e).
Proof.
  intros H. destruct e as [ts|msg|sid m o|i ev|t| | |]; cbn [step];
    unfold_handlers_pcs; crush_step; unfold ref_live; cbn;
    repeat (rewrite ?update_pc_ref, ?cleanupPeerConnection_ref,
              ?handleDisconnect_ref; cbn).
  all: try exact H.
  all: try (intros ? [=]; fail).
  all: intros j Hj; repeat (rewrite update_pc_lookup; cbn).
  all: first
    [ destruct (H j Hj) as (pc & Hl & Hc); rewrite Hl;
      repeat destruct (decide _); cbn; eexists; (split; [reflexivity|exact Hc])
    | injection Hj as <-; rewrite list_lookup_middle by reflexivity;
      repeat destruct (decide _); cbn; eexists; (split; reflexivity) ].
Qed.

Lemma reachable_ref_live (w : World) : reachable w -> ref_live w.
Proof.
  revert w. apply reachable_invariant; [intros i [=]|].
  intros w e _. apply ref_live_step.
Qed.

(** The handle the offer handler works on (line 275): it is the current
    one, or the one [createPeerConnection] has just made; either way it
    is the current handle afterwards, and neither the connection status
    nor the sent messages have changed. *)
Lemma current_or_create_handle env o w i w1 :
  current_or_create env o w = (Some i, w1) ->
  peerConnectionRef w1 = Some i
  /\ connectionState w1 = connectionState w
  /\ emitted w1 = emitted w
  /\ (peerConnectionRef w = None ->
      i = length (pcs w)
      /\ pcs w1 !! i
         = Some (mkPC false Stable None None (default [] (cap_localStream env)) []
                   IceNew env 0)).
Proof.
  unfold current_or_create. destruct (peerConnectionRef w) as [r|] eqn:Hr.
  - intros [= <- <-]. repeat split; try assumption. all: discriminate.
  - unfold createPeerConnection. cbn zeta.
    remember (cleanupPeerConnection w) as wc eqn:Hwc.
    destruct (ctor_ok o); [|discriminate].
    intros [= <- <-]. subst wc. cbn.
    rewrite cleanupPeerConnection_connectionState, cleanupPeerConnection_emitted,
      cleanupPeerConnection_length.
    repeat split. rewrite list_lookup_middle.
    + destruct (cap_localStream env); reflexivity.
    + symmetry. apply cleanupPeerConnection_length.
Qed.

Lemma one_handle_current_or_create env o w :
  one_handle w -> one_handle (snd (current_or_create env o w)).
Proof.
  intros H. unfold current_or_create.
  destruct (peerConnectionRef w); cbn [snd]; auto with handle.
Qed.

Lemma torn_down_from (w w1 w' : World) (i : nat) :
  connectionState w1 = connectionState w -> emitted w1 = emitted w ->
  torn_down w1 w' i -> torn_down w w' i.
Proof. unfold torn_down. intros <- <-. exact id. Qed.

Lemma handleDisconnect_no_live (w : World) :
  one_handle w -> live_handles (handleDisconnect w) = [].
Proof.
  intros H. unfold live_handles.
  change (pcs (handleDisconnect w)) with (pcs (cleanupPeerConnection w)).
  apply all_closed_no_live, cleanupPeerConnection_all_closed, H.
Qed.

(** A failing await of the offer handler leads to its [catch] branch, with
    the remote description applied or not. *)
Lemma on_offer_failure sid env peerId offer o w i w1 pc :
  current_or_create env o w = (Some i, w1) ->
  pcs w1 !! i = Some pc ->
  offerCollision env w1 pc = false ->
  setRemote_ok o = false \/ createAnswer_res o = None \/ setLocal_ok o = false ->
  on_offer sid env peerId offer o w = handleDisconnect w1
  \/ on_offer sid env peerId offer o w
     = handleDisconnect (update_pc i (apply_remote offer) w1).
Proof.
  intros Hcur Hi Hcol Hfail. unfold on_offer. rewrite Hcur, Hi, Hcol.
  destruct (setRemote_ok o); cbn [negb]; [right|left; reflexivity].
  destruct (createAnswer_res o) as [answer|]; [|reflexivity].
  destruct (setLocal_ok o); [|reflexivity].
  destruct Hfail as [Hf|[Hf|Hf]]; discriminate Hf.
Qed.

(** The offer handler's [catch] branch, in any state. *)
Lemma on_offer_failure_torn_down sid env peerId offer o w i w1 pc :
  current_or_create env o w = (Some i, w1) ->
  pcs w1 !! i = Some pc ->
  offerCollision env w1 pc = false ->
  setRemote_ok o = false \/ createAnswer_res o = None \/ setLocal_ok o = false ->
  torn_down w (on_offer sid env peerId offer o w) i.
Proof.
  intros Hcur Hi Hcol Hfail.
  destruct (current_or_create_handle env o w i w1 Hcur) as (Href & Hcs & Hem & _).
  apply (torn_down_from w w1 _ i Hcs Hem).
  destruct (on_offer_failure sid env peerId offer o w i w1 pc Hcur Hi Hcol Hfail)
    as [-> | ->].
  - apply (handleDisconnect_torn_down w1 i pc Href Hi).
  - apply (handleDisconnect_torn_down (update_pc i (apply_remote offer) w1) i
             (apply_remote offer pc)); [exact Href|].
    rewrite update_pc_lookup, decide_True by reflexivity.
    rewrite Hi. reflexivity.
Qed.

Lemma on_offer_failure_no_live sid env peerId offer o w i w1 pc :
  one_handle w ->
  current_or_create env o w = (Some i, w1) ->
  pcs w1 !! i = Some pc ->
  offerCollision env w1 pc = false ->
  setRemote_ok o = false \/ createAnswer_res o = None \/ setLocal_ok o = false ->
  live_handles (on_offer sid env peerId offer o w) = [].
Proof.
  intros Hone Hcur Hi Hcol Hfail.
  pose proof (one_handle_current_or_create env o w Hone) as Hone1.
  rewrite Hcur in Hone1. cbn [snd] in Hone1.
  destruct (on_offer_failure sid env peerId offer o w i w1 pc Hcur Hi Hcol Hfail)
    as [-> | ->]; apply handleDisconnect_no_live; auto with handle.
Qed.

(** C6 (amended). A failure of [setRemoteDescription], [createAnswer] or
    [setLocalDescription] while an offer is handled, and a failure of
    [setRemoteDescription] while an answer is handled, is caught and
    handled by [handleDisconnect]: the handle is closed and dropped, the
    remote stream is cleared, the status becomes "Disconnected" with
    [isConnected], [isWaiting] and [isInitiator] false, the error text and
    the retry counter stay as they were, and nothing is sent.  For an
    offer the handle is the one the handler works on (line 275): the
    current one, or the one it has just created when there was none; the
    third part spells out the latter case.  In a reachable state that
    handle always exists and is live, and after the failure no connection
    at all is left live. *)
Theorem negotiation_failure_disconnects (w : World) :
  (forall sid env peerId offer o i w1 pc,
     current_or_create env o w = (Some i, w1) ->
     pcs w1 !! i = Some pc ->
     offerCollision env w1 pc = false ->
     setRemote_ok o = false \/ createAnswer_res o = None \/ setLocal_ok o = false ->
     torn_down w (on_offer sid env peerId offer o w) i)
  /\ (forall answer o i pc,
        peerConnectionRef w = Some i -> pcs w !! i = Some pc ->
        setRemote_ok o = false ->
        on_answer answer o w = handleDisconnect w
        /\ torn_down w (on_answer answer o w) i)
  /\ (forall sid env peerId offer o,
        peerConnectionRef w = None -> makingOfferRef w = false ->
        ctor_ok o = true ->
        setRemote_ok o = false \/ createAnswer_res o = None \/ setLocal_ok o = false ->
        torn_down w (on_offer sid env peerId offer o w) (length (pcs w)))
  /\ (reachable w ->
      (forall env o i w1,
         current_or_create env o w = (Some i, w1) ->
         exists pc, pcs w1 !! i = Some pc /\ pc_closed pc = false)
      /\ (forall sid env peerId offer o i w1 pc,
            current_or_create env o w = (Some i, w1) ->
            pcs w1 !! i = Some pc ->
            offerCollision env w1 pc = false ->
            setRemote_ok o = false \/ createAnswer_res o = None
            \/ setLocal_ok o = false ->
            live_handles (on_offer sid env peerId offer o w) = [])
      /\ (forall answer o i,
            peerConnectionRef w = Some i -> setRemote_ok o = false ->
            (exists pc, pcs w !! i = Some pc /\ pc_closed pc = false)
            /\ live_handles (on_answer answer o w) = [])).
Proof.
  split; [|split; [|split]].
  - intros sid env peerId offer o i w1 pc.
    apply on_offer_failure_torn_down.
  - intros answer o i pc Href Hi Hfail.
    unfold on_answer. rewrite Href, Hfail. cbn [negb].
    split; [reflexivity|]. apply (handleDisconnect_torn_down w i pc Href Hi).
  - intros sid env peerId offer o Href Hmo Hok Hfail.
    destruct (current_or_create env o w) as [[i|] w1] eqn:Hcur.
    2: { unfold current_or_create, createPeerConnection in Hcur.
         rewrite Href, Hok in Hcur. discriminate Hcur. }
    destruct (current_or_create_handle env o w i w1 Hcur) as (_ & _ & _ & Hnew).
    destruct (Hnew Href) as [-> Hl].
    apply (on_offer_failure_torn_down sid env peerId offer o w _ w1 _ Hcur Hl);
      [|exact Hfail].
    unfold offerCollision. cbn.
    pose proof (current_or_create_frame env o w) as [_ Hm].
    rewrite Hcur in Hm. cbn [snd] in Hm. rewrite Hm, Hmo. reflexivity.
  - intros Hr.
    pose proof (reachable_one_handle w Hr) as Hone.
    pose proof (reachable_ref_live w Hr) as Hlive.
    split; [|split].
    + intros env o i w1 Hcur.
      destruct (current_or_create_handle env o w i w1 Hcur) as (_ & _ & _ & Hnew).
      destruct (peerConnectionRef w) as [r|] eqn:Href.
      * unfold current_or_create in Hcur. rewrite Href in Hcur.
        injection Hcur as <- <-. apply Hlive, Href.
      * destruct (Hnew eq_refl) as [_ Hl]. eexists. split; [exact Hl|reflexivity].
    + intros sid env peerId offer o i w1 pc.
      apply on_offer_failure_no_live, Hone.
    + intros answer o i Href Hfail. split; [apply Hlive, Href|].
      unfold on_answer. rewrite Href, Hfail. cbn [negb].
      by apply handleDisconnect_no_live.
Qed.

Lemma reachable_waiting : reachable waiting.
Proof. apply reachable_run, reachable_mounted. Qed.

Lemma negotiation_failure_disconnects_witness :
  torn_down matched
    (on_offer 0 (mkCaptured None false 0) 9 (mkDesc Offer 5) rejects_remote matched) 0
  /\ torn_down matched (on_answer (mkDesc Answer 4) rejects_remote matched) 0
  /\ torn_down waiting
       (on_offer 0 (mkCaptured None false 0) 9 (mkDesc Offer 5) rejects_remote waiting)
       0
  /\ live_handles
       (on_offer 0 (mkCaptured None false 0) 9 (mkDesc Offer 5) rejects_remote waiting)
     = [].
Proof.
  destruct (negotiation_failure_disconnects matched) as (Hoffer & Hanswer & _ & _).
  destruct (negotiation_failure_disconnects waiting) as (_ & _ & Hfresh & Hreach).
  destruct (Hreach reachable_waiting) as (_ & Hlive & _).
  split.
  { apply (Hoffer 0 (mkCaptured None false 0) 9 (mkDesc Offer 5) rejects_remote
             0 matched matched_pc); [reflexivity..|left; reflexivity]. }
  split.
  { apply (Hanswer (mkDesc Answer 4) rejects_remote 0 matched_pc); reflexivity. }
  split.
  { apply (Hfresh 0 (mkCaptured None false 0) 9 (mkDesc Offer 5) rejects_remote);
      [reflexivity..|left; reflexivity]. }
  eapply (Hlive 0 (mkCaptured None false 0) 9 (mkDesc Offer 5) rejects_remote 0);
    [reflexivity|reflexivity|reflexivity|left; reflexivity].
Defined.

(** The handle does not survive a failed offer: in the reachable state
    [matched] the handle 0 is live; once the platform has rejected the
    remote description of an incoming offer, the handle is closed,
    [peerConnectionRef] is null and the status is "Disconnected". *)
Lemma offer_failure_closes_handle :
  reachable matched
  /\ peerConnectionRef matched = Some 0
  /\ pcs matched !! 0 = Some matched_pc
  /\ pc_closed matched_pc = false
  /\ peerConnectionRef
       (step matched (EvSocket 0 (MsgOffer 9 (mkDesc Offer 5)) rejects_remote)) = None
  /\ pcs (step matched (EvSocket 0 (MsgOffer 9 (mkDesc Offer 5)) rejects_remote)) !! 0
     = Some (pc_set_closed matched_pc)
  /\ status (connectionState
               (step matched (EvSocket 0 (MsgOffer 9 (mkDesc Offer 5)) rejects_remote)))
     = "Disconnected".
Proof. split; [exact reachable_matched|]. eval_conj. Qed.

(** ** Offer collisions *)

(** C1 (amended). With [pc] the handle the offer handler works on (the
    current one, or a fresh one when there was none): if [makingOfferRef]
    is set, or [pc] is not in the stable signaling state while the role
    flag the handler reads is not initiator, the offer is dropped: no
    description is applied and nothing is sent.  Otherwise, when no
    platform call fails, the offer becomes the remote description, the
    created answer becomes the local description, and one ["answer"]
    message with that answer is sent.  So a peer that has its own offer
    pending and is not making one drops the incoming offer when its role
    flag is not initiator, and applies and answers it when its role flag
    is initiator. *)
Theorem on_offer_collision (sid : nat) (env : Captured) (peerId : nat)
    (offer : Desc) (o : Outcome) (w w1 : World) (i : nat) (pc : PeerConn) :
  current_or_create env o w = (Some i, w1) ->
  pcs w1 !! i = Some pc ->
  let w' := on_offer sid env peerId offer o w in
  (makingOfferRef w1 = true
   \/ (pc_signalingState pc <> Stable /\ cap_isInitiator env = false) ->
   w' = w1 /\ emitted w' = emitted w /\ pcs w' !! i = Some pc)
  /\ (makingOfferRef w1 = false ->
      pc_signalingState pc = Stable \/ cap_isInitiator env = true ->
      forall answer,
        setRemote_ok o = true -> createAnswer_res o = Some answer ->
        setLocal_ok o = true ->
        pcs w' !! i = Some (apply_local answer (apply_remote offer pc))
        /\ pc_remoteDescription (apply_local answer (apply_remote offer pc))
           = Some offer
        /\ pc_localDescription (apply_local answer (apply_remote offer pc))
           = Some answer
        /\ emitted w' = emitted w ++ [(sid, EmitAnswer peerId answer)])
  /\ (pc_signalingState pc = HaveLocalOffer -> makingOfferRef w1 = false ->
      (cap_isInitiator env = false -> w' = w1 /\ emitted w' = emitted w)
      /\ (cap_isInitiator env = true ->
          forall answer,
            setRemote_ok o = true -> createAnswer_res o = Some answer ->
            setLocal_ok o = true ->
            pcs w' !! i = Some (apply_local answer (apply_remote offer pc))
            /\ emitted w' = emitted w ++ [(sid, EmitAnswer peerId answer)])).
Proof.
  intros Hcur Hi w'.
  pose proof (current_or_create_frame env o w) as [Hem _].
  rewrite Hcur in Hem. cbn [snd] in Hem.
  assert (offerCollision env w1 pc = true -> w' = w1) as Hdrop.
  { intros Hc. subst w'. unfold on_offer. rewrite Hcur, Hi, Hc. reflexivity. }
  assert (offerCollision env w1 pc = false ->
          forall answer,
            setRemote_ok o = true -> createAnswer_res o = Some answer ->
            setLocal_ok o = true ->
            pcs w' !! i = Some (apply_local answer (apply_remote offer pc))
            /\ emitted w' = emitted w ++ [(sid, EmitAnswer peerId answer)])
    as Hgo.
  { intros Hc answer Hsr Hca Hsl. subst w'. unfold on_offer.
    rewrite Hcur, Hi, Hc, Hsr, Hca, Hsl. cbn [negb]. split.
    - change (pcs (update_pc i (apply_local answer)
                     (update_pc i (apply_remote offer) w1)) !! i
              = Some (apply_local answer (apply_remote offer pc))).
      rewrite !update_pc_lookup, !decide_True by reflexivity.
      rewrite Hi. reflexivity.
    - cbn. rewrite <- Hem. reflexivity. }
  split; [|split].
  - intros Hcond. assert (offerCollision env w1 pc = true) as Hc.
    { unfold offerCollision. destruct Hcond as [->|[Hns ->]]; [reflexivity|].
      destruct (pc_signalingState pc); by destruct (makingOfferRef w1). }
    rewrite (Hdrop Hc). auto.
  - intros Hmo Hcond answer Hsr Hca Hsl.
    assert (offerCollision env w1 pc = false) as Hc.
    { unfold offerCollision. rewrite Hmo. destruct Hcond as [->| ->]; [reflexivity|].
      by destruct (pc_signalingState pc). }
    destruct (Hgo Hc answer Hsr Hca Hsl) as [H1 H2]. auto.
  - intros Hst Hmo. split.
    + intros Hrole. rewrite Hdrop; [auto|].
      unfold offerCollision. rewrite Hmo, Hst, Hrole. reflexivity.
    + intros Hrole. apply Hgo.
      unfold offerCollision. rewrite Hmo, Hst, Hrole. reflexivity.
Qed.

Lemma on_offer_collision_witness :
  on_offer 1 initiator_env 9 (mkDesc Offer 5) (all_ok (mkDesc Answer 6)) negotiating
    = negotiating
  /\ emitted (on_offer 1 initiator_env 9 (mkDesc Offer 5) (all_ok (mkDesc Answer 6))
               offering)
     = emitted offering ++ [(1, EmitAnswer 9 (mkDesc Answer 6))].
Proof.
  split.
  - destruct (on_offer_collision 1 initiator_env 9 (mkDesc Offer 5)
                (all_ok (mkDesc Answer 6)) negotiating negotiating 1
                negotiating_pc eq_refl eq_refl) as (Hdrop & _ & _).
    apply Hdrop. left. reflexivity.
  - destruct (on_offer_collision 1 initiator_env 9 (mkDesc Offer 5)
                (all_ok (mkDesc Answer 6)) offering offering 1
                offering_pc eq_refl eq_refl) as (_ & _ & Hglare).
    destruct (Hglare eq_refl eq_refl) as [_ Hinit].
    apply (Hinit eq_refl (mkDesc Answer 6)); reflexivity.
Defined.

(** The initiator's offer does not prevail: in the reachable state
    [offering] the peer holds the initiator role, has sent its own offer
    and has it pending; an offer that arrives then is applied as the
    remote description and answered, and the peer's own offer is replaced
    by that answer.  (On a platform that rejects a remote offer in that
    signaling state, the handle is dropped instead.) *)
Lemma initiator_yields_to_incoming_offer :
  reachable offering
  /\ isInitiator (connectionState offering) = true
  /\ (sock_env <$> sockets offering !! 1) = Some initiator_env
  /\ List.filter is_offer (emitted offering)
     = [(1, EmitOffer 1 (Some (mkDesc Offer 1)))]
  /\ pcs offering !! 1 = Some offering_pc
  /\ makingOfferRef offering = false
  /\ pcs (step offering
            (EvSocket 1 (MsgOffer 9 (mkDesc Offer 5)) (all_ok (mkDesc Answer 6)))) !! 1
     = Some (mkPC false Stable (Some (mkDesc Answer 6)) (Some (mkDesc Offer 5))
               [0; 1] [] IceNew initiator_env 0)
  /\ emitted (step offering
                (EvSocket 1 (MsgOffer 9 (mkDesc Offer 5)) (all_ok (mkDesc Answer 6))))
     = emitted offering ++ [(1, EmitAnswer 9 (mkDesc Answer 6))]
  /\ peerConnectionRef
       (step offering (EvSocket 1 (MsgOffer 9 (mkDesc Offer 5)) rejects_remote))
     = None.
Proof. split; [exact reachable_offering|]. eval_conj. Qed.

(** ** Renegotiation triggers *)

(** A trigger that fires while [isNegotiatingRef] is set sends nothing and
    starts no negotiation; its [finally] block clears both flags. *)
Lemma onnegotiationneeded_held (i : nat) (pc : PeerConn) (w : World) :
  pcs w !! i = Some pc -> isNegotiatingRef w = true ->
  let w' := onnegotiationneeded i w in
  emitted w' = emitted w /\ pcs w' = pcs w
  /\ isNegotiatingRef w' = false /\ makingOfferRef w' = false.
Proof.
  intros Hi Hn. unfold onnegotiationneeded. rewrite Hi, Hn.
  repeat split; reflexivity.
Qed.

(** A trigger on a handle whose callbacks do not see the initiator role
    sends nothing and starts no negotiation. *)
Lemma onnegotiationneeded_responder (i : nat) (pc : PeerConn) (w : World) :
  pcs w !! i = Some pc -> cap_isInitiator (pc_env pc) = false ->
  onnegotiationneeded i w = release_flags w.
Proof.
  intros Hi Hrole. unfold onnegotiationneeded. rewrite Hi, Hrole.
  by destruct (isNegotiatingRef w).
Qed.

(** When [setLocalDescription] settles, either way, both flags are
    cleared; after a rejection nothing is sent, the error is set and the
    handle stays. *)
Lemma onnegotiationneeded_settled_flags (i : nat) (pc : PeerConn) (r : option Desc)
    (w : World) :
  pcs w !! i = Some pc -> 0 < pc_pending pc ->
  let w' := onnegotiationneeded_settled i r w in
  isNegotiatingRef w' = false /\ makingOfferRef w' = false
  /\ (r = None -> emitted w' = emitted w
                  /\ error (connectionState w') = Some "Connection negotiation failed"
                  /\ peerConnectionRef w' = peerConnectionRef w).
Proof.
  intros Hi Hp. unfold onnegotiationneeded_settled. rewrite Hi.
  destruct (pc_pending pc) as [|n]; [lia|]. cbn zeta.
  destruct r as [d|].
  - change (socketRef (update_pc i (apply_local d) (update_pc i (pc_set_pending n) w)))
      with (socketRef w).
    destruct (socketRef w); repeat split; try reflexivity; discriminate.
  - repeat split; reflexivity.
Qed.

(** C2. Three triggers fire in a row on the initiator's handle while the
    first one's [setLocalDescription] is still pending.  The first sets
    both flags; the second returns early, and its [finally] block clears
    the flags that the first still relies on; the third therefore starts a
    second negotiation on the same handle.  When the two pending calls
    resolve, two offers have been sent. *)
Theorem rapid_triggers_emit_two_offers :
  isNegotiatingRef initiator_matched = false
  /\ pcs initiator_matched !! 1
     = Some (mkPC false Stable None None [0; 1] [] IceNew initiator_env 0)
  /\ isNegotiatingRef (run initiator_matched (take 1 three_triggers)) = true
  /\ isNegotiatingRef (run initiator_matched (take 2 three_triggers)) = false
  /\ (pc_pending <$> pcs (run initiator_matched (take 2 three_triggers)) !! 1)
     = Some 1
  /\ (pc_pending <$> pcs (run initiator_matched three_triggers) !! 1) = Some 2
  /\ offers_emitted (run initiator_matched three_triggers) = 0
  /\ List.filter is_offer
       (emitted (run initiator_matched (three_triggers ++ two_settled)))
     = [(1, EmitOffer 1 (Some (mkDesc Offer 1)));
        (1, EmitOffer 1 (Some (mkDesc Offer 2)))]
  /\ offers_emitted (run initiator_matched (three_triggers ++ two_settled)) = 2.
Proof. eval_conj. Qed.

(** ** Find-partner requests *)

(** C8 (amended). A click on the find-partner button while [isWaiting] is
    true does nothing: nothing is sent and the state is unchanged.  While
    [isWaiting] is false the request is carried out whether or not a
    negotiation is in progress: on a connected socket the handle is
    dropped, the status becomes waiting, and one ["find-match"] message is
    sent. *)
Theorem click_findPartner_gate (w : World) :
  (isWaiting (connectionState w) = true -> click_findPartner w = w)
  /\ (isWaiting (connectionState w) = false ->
      forall sid, socketRef w = Some sid -> socket_connected w sid = true ->
        let w' := click_findPartner w in
        emitted w' = emitted w ++ [(sid, EmitFindMatch)]
        /\ peerConnectionRef w' = None
        /\ connectionState w' =
             mkConn false true (error (connectionState w))
               "Looking for a partner..." (isInitiator (connectionState w))
               (reconnectAttempts (connectionState w))
        /\ isNegotiatingRef w' = isNegotiatingRef w
        /\ makingOfferRef w' = makingOfferRef w).
Proof.
  split.
  - intros Hw. unfold click_findPartner. rewrite Hw. reflexivity.
  - intros Hw sid Hs Hc. unfold click_findPartner, findPartner.
    rewrite Hw, Hs, Hc. cbn.
    rewrite cleanupPeerConnection_emitted, cleanupPeerConnection_ref,
      cleanupPeerConnection_connectionState.
    destruct (cleanupPeerConnection_flags w) as [-> ->].
    repeat split; reflexivity.
Qed.

Lemma click_findPartner_gate_witness :
  click_findPartner waiting = waiting
  /\ emitted (click_findPartner negotiating)
     = emitted negotiating ++ [(1, EmitFindMatch)].
Proof.
  split.
  - destruct (click_findPartner_gate waiting) as [Hgate _].
    apply Hgate. reflexivity.
  - destruct (click_findPartner_gate negotiating) as [_ Hgo].
    apply (Hgo eq_refl 1); reflexivity.
Defined.

(** A request made in the middle of a negotiation is not rejected: in the
    reachable state [negotiating] the initiator's [setLocalDescription] is
    pending and [isNegotiatingRef] is set; a click on the find-partner
    button sends ["find-match"], closes the handle and changes the
    connection status. *)
Lemma findPartner_during_negotiation :
  reachable negotiating
  /\ isNegotiatingRef negotiating = true
  /\ pcs negotiating !! 1 = Some negotiating_pc
  /\ isWaiting (connectionState negotiating) = false
  /\ peerConnectionRef negotiating = Some 1
  /\ emitted (step negotiating ClickFindPartner)
     = emitted negotiating ++ [(1, EmitFindMatch)]
  /\ peerConnectionRef (step negotiating ClickFindPartner) = None
  /\ pcs (step negotiating ClickFindPartner) !! 1 = Some (pc_set_closed negotiating_pc)
  /\ isWaiting (connectionState (step negotiating ClickFindPartner)) = true
  /\ status (connectionState (step negotiating ClickFindPartner))
     = "Looking for a partner...".
Proof. split; [exact reachable_negotiating|]. eval_conj. Qed.

(** ** ICE failures *)

Lemma clearTimeout_length (t : nat) (w : World) :
  length (timers (clearTimeout t w)) = length (timers w).
Proof.
  unfold clearTimeout. cbn.
  destruct (timers w !! t); [apply length_insert|reflexivity].
Qed.

(** What the handler does on [failed], in terms of the retry count its
    closure holds: below the ceiling the current counter goes up by one
    and a timer running [findPartner] after [RECONNECT_DELAY] is armed and
    stored in [reconnectTimeoutRef]. *)
Lemma ice_failed_below_ceiling (i : nat) (pc : PeerConn) (w : World) :
  pcs w !! i = Some pc ->
  cap_reconnectAttempts (pc_env pc) < MAX_RECONNECT_ATTEMPTS ->
  let w' := oniceconnectionstatechange i IceFailed w in
  reconnectAttempts (connectionState w') = reconnectAttempts (connectionState w) + 1
  /\ reconnectTimeoutRef w' = Some (length (timers w))
  /\ timers w' !! length (timers w) = Some (mkTimer true RECONNECT_DELAY (pc_env pc))
  /\ peerConnectionRef w' = peerConnectionRef w.
Proof.
  intros Hi Hlt. unfold oniceconnectionstatechange. rewrite Hi. cbn zeta.
  rewrite bool_decide_eq_true_2 by exact Hlt.
  unfold setTimeout_findPartner.
  set (w1 := setConnectionState _ _).
  set (w2 := match reconnectTimeoutRef w1 with
             | Some t => clearTimeout t w1
             | None => w1
             end).
  assert (length (timers w2) = length (timers w)) as Hlen.
  { subst w2. destruct (reconnectTimeoutRef w1) as [t|]; [|reflexivity].
    exact (clearTimeout_length t w1). }
  assert (connectionState w2 = connectionState w1
          /\ peerConnectionRef w2 = peerConnectionRef w) as [Hcs Hpc].
  { subst w2. destruct (reconnectTimeoutRef w1); split; reflexivity. }
  change (reconnectAttempts (connectionState w2)
            = reconnectAttempts (connectionState w) + 1
          /\ Some (length (timers w2)) = Some (length (timers w))
          /\ (timers w2 ++ [mkTimer true RECONNECT_DELAY (pc_env pc)])
               !! length (timers w)
             = Some (mkTimer true RECONNECT_DELAY (pc_env pc))
          /\ peerConnectionRef w2 = peerConnectionRef w).
  rewrite Hcs, Hlen, Hpc. repeat split.
  rewrite lookup_app_r by lia. rewrite Hlen.
  replace (length (timers w) - length (timers w)) with 0 by lia. reflexivity.
Qed.

(** At or above the ceiling the handle is dropped, the error is set, and
    no timer is armed. *)
Lemma ice_failed_at_ceiling (i : nat) (pc : PeerConn) (w : World) :
  pcs w !! i = Some pc ->
  MAX_RECONNECT_ATTEMPTS <= cap_reconnectAttempts (pc_env pc) ->
  let w' := oniceconnectionstatechange i IceFailed w in
  peerConnectionRef w' = None
  /\ error (connectionState w') = Some "Connection failed after multiple attempts"
  /\ reconnectAttempts (connectionState w') = reconnectAttempts (connectionState w)
  /\ timers w' = timers w
  /\ reconnectTimeoutRef w' = reconnectTimeoutRef w.
Proof.
  intros Hi Hge. unfold oniceconnectionstatechange. rewrite Hi. cbn zeta.
  rewrite bool_decide_eq_false_2 by lia.
  set (w0 := update_pc i (pc_set_ice IceFailed) w).
  cbn. rewrite handleDisconnect_ref, handleDisconnect_connectionState.
  repeat split; unfold handleDisconnect, cleanupPeerConnection;
    destruct (peerConnectionRef w0); reflexivity.
Qed.

(** On [connected] the current counter is reset and the error cleared. *)
Lemma ice_connected_resets (i : nat) (pc : PeerConn) (w : World) :
  pcs w !! i = Some pc ->
  let w' := oniceconnectionstatechange i IceConnected w in
  reconnectAttempts (connectionState w') = 0
  /\ error (connectionState w') = None
  /\ status (connectionState w') = "Connected to partner".
Proof.
  intros Hi. unfold oniceconnectionstatechange. rewrite Hi. repeat split.
Qed.

(** C4. With the counter at the ceiling, a further ICE failure is not
    terminal.  The handlers registered at mount create every handle with
    the callbacks of the first render, which hold [reconnectAttempts = 0];
    the test against the ceiling reads that value, so the fourth failure
    raises the counter to 4 and arms another re-match, while the handle
    stays live and no error is shown. *)
Theorem ice_failed_at_three_retries :
  reconnectAttempts (connectionState at_ceiling) = 3
  /\ cap_reconnectAttempts (snapshot at_ceiling) = 3
  /\ peerConnectionRef at_ceiling = Some 3
  /\ pcs at_ceiling !! 3
     = Some (mkPC false Stable None None [] [] IceNew (mkCaptured None false 0) 0)
  /\ reconnectAttempts (connectionState fourth_failure) = 4
  /\ reconnectTimeoutRef fourth_failure = Some 3
  /\ timers fourth_failure !! 3
     = Some (mkTimer true RECONNECT_DELAY (mkCaptured None false 0))
  /\ peerConnectionRef fourth_failure = Some 3
  /\ (pc_closed <$> pcs fourth_failure !! 3) = Some false
  /\ error (connectionState fourth_failure) = None
  /\ status (connectionState fourth_failure)
     = "Connection failed. Attempting to reconnect...".
Proof. eval_conj. Qed.

(** ** Connected and waiting *)

(** C5. A peer that asked for a partner, was told to wait, and then
    received and answered its partner's offer is both connected and
    waiting once the partner's track arrives: [ontrack] sets
    [isConnected] without clearing [isWaiting].  The same holds for a
    matched peer that receives ["waiting"] after the track: that handler
    sets [isWaiting] without clearing [isConnected]. *)
Theorem connected_and_waiting :
  isConnected (connectionState responder_connected) = true
  /\ isWaiting (connectionState responder_connected) = true
  /\ isConnected (connectionState waiting_after_track) = true
  /\ isWaiting (connectionState waiting_after_track) = true.
Proof. eval_conj. Qed.

(** * Further properties of the component *)

(** ** The two negotiation flags *)

(** X1. In every reachable state [makingOfferRef] and [isNegotiatingRef]
    have the same value: the trigger handler sets and clears them
    together and nothing else writes them. *)
Theorem flags_agree (w : World) :
  reachable w -> makingOfferRef w = isNegotiatingRef w.
Proof.
  revert w. apply reachable_invariant; [reflexivity|].
  intros w e _ H. destruct e; cbn [step]; unfold_handlers;
    crush_step; try assumption; reflexivity.
Qed.

Lemma flags_agree_witness :
  makingOfferRef negotiating = true /\ isNegotiatingRef negotiating = true.
Proof.
  pose proof (flags_agree negotiating reachable_negotiating) as H.
  split; [reflexivity|]. rewrite <- H. reflexivity.
Defined.

(** ** The reconnect timer *)

Lemma timers_wf_cleared (l : list Timer) (t : nat) (tm : Timer) (r : option nat) :
  timers_wf l (Some t) -> l !! t = Some tm ->
  timers_wf (<[t := mkTimer false (t_delay tm) (t_env tm)]> l) r.
Proof.
  intros H Ht t' tm' Hl. destruct (decide (t = t')) as [<-|Hne].
  - rewrite list_lookup_insert_eq in Hl by (eapply lookup_lt_Some; eauto).
    injection Hl as <-. cbn. split; [apply (H t tm Ht) | discriminate].
  - rewrite list_lookup_insert_ne in Hl by exact Hne.
    destruct (H t' tm' Hl) as [Hd Hp]. split; [exact Hd|].
    intros Hpend. specialize (Hp Hpend). congruence.
Qed.

Lemma timers_wf_none_pending (l : list Timer) (r : option nat) :
  timers_wf l None -> timers_wf l r.
Proof.
  intros H t tm Hl. destruct (H t tm Hl) as [Hd Hp]. split; [exact Hd|].
  intros Hpend. specialize (Hp Hpend). discriminate.
Qed.

Lemma timers_wf_stale (l : list Timer) (t : nat) (r : option nat) :
  timers_wf l (Some t) -> l !! t = None -> timers_wf l r.
Proof.
  intros H Ht t' tm Hl. destruct (H t' tm Hl) as [Hd Hp]. split; [exact Hd|].
  intros Hpend. specialize (Hp Hpend). congruence.
Qed.

Lemma timers_wf_armed (l : list Timer) (env : Captured) :
  (forall r, timers_wf l r) ->
  timers_wf (l ++ [mkTimer true RECONNECT_DELAY env]) (Some (length l)).
Proof.
  intros H t tm Hl. apply lookup_app_Some in Hl as [Hl|[Hge Hl]].
  - destruct (H None t tm Hl) as [Hd Hp]. split; [exact Hd|].
    intros Hpend. specialize (Hp Hpend). discriminate.
  - destruct (t - length l) as [|k] eqn:Hk; [|destruct k; discriminate].
    injection Hl as <-. split; [reflexivity|]. intros _. f_equal. lia.
Qed.

(** Clearing the timer [reconnectTimeoutRef] points to leaves none
    pending. *)
Lemma timers_wf_clear_ref (w : World) (r : option nat) :
  timers_wf (timers w) (reconnectTimeoutRef w) ->
  timers_wf
    (timers match reconnectTimeoutRef w with
            | Some t => clearTimeout t w
            | None => w
            end) r.
Proof.
  intros H. destruct (reconnectTimeoutRef w) as [t|] eqn:Hr.
  - unfold clearTimeout. cbn. destruct (timers w !! t) as [tm|] eqn:Ht.
    + by apply timers_wf_cleared.
    + by apply (timers_wf_stale _ t).
  - by apply timers_wf_none_pending.
Qed.

Lemma timers_wf_step (w : World) (e : Event) :
  timers_wf (timers w) (reconnectTimeoutRef w) ->
  timers_wf (timers (step w e)) (reconnectTimeoutRef (step w e)).
Proof.
  intros H. destruct e as [ts|msg|sid m o|i ev|t| | |]; cbn [step].
  - exact H.
  - exact H.
  - unfold_handlers. crush_step; exact H.
  - unfold pc_event. destruct (pcs w !! i) as [pc|]; [|exact H].
    destruct (pc_closed pc); [exact H|].
    destruct ev as [|r|s|c|st].
    + unfold_handlers. crush_step; exact H.
    + unfold_handlers. crush_step; exact H.
    + unfold_handlers. crush_step; exact H.
    + unfold_handlers. crush_step; exact H.
    + unfold oniceconnectionstatechange. destruct (pcs w !! i) as [pc'|]; [|exact H].
      cbn zeta. destruct st; try exact H.
      * destruct (bool_decide _).
        -- unfold setTimeout_findPartner.
           set (w1 := setConnectionState _ _).
           change (timers_wf
                     (timers match reconnectTimeoutRef w1 with
                             | Some t => clearTimeout t w1
                             | None => w1
                             end ++ [mkTimer true RECONNECT_DELAY (pc_env pc')])
                     (Some (length
                              (timers match reconnectTimeoutRef w1 with
                                      | Some t => clearTimeout t w1
                                      | None => w1
                                      end)))).
           apply timers_wf_armed. intros r. apply timers_wf_clear_ref. exact H.
        -- unfold handleDisconnect, cleanupPeerConnection, update_pc.
           crush_step; exact H.
  - unfold timer_event. destruct (timers w !! t) as [tm|] eqn:Ht; [|exact H].
    destruct (t_pending tm) eqn:Hp; [|exact H].
    assert (timers_wf (timers (clearTimeout t w))
              (reconnectTimeoutRef (clearTimeout t w))) as H1.
    { unfold clearTimeout. cbn. rewrite Ht. apply timers_wf_cleared; [|exact Ht].
      destruct (H t tm Ht) as [_ Hr]. rewrite <- (Hr Hp). exact H. }
    revert H1. generalize (clearTimeout t w). intros w1 H1.
    unfold_handlers. crush_step; exact H1.
  - unfold_handlers. crush_step; exact H.
  - unfold_handlers. crush_step; exact H.
  - unfold_handlers. crush_step; exact H.
Qed.

Lemma reachable_timers_wf (w : World) :
  reachable w -> timers_wf (timers w) (reconnectTimeoutRef w).
Proof.
  revert w. apply reachable_invariant.
  - intros t tm Hl. destruct t; discriminate Hl.
  - intros w e _. apply timers_wf_step.
Qed.

(** X2. In every reachable state every timer has the delay
    [RECONNECT_DELAY], a pending timer is the one [reconnectTimeoutRef]
    points to, and so at most one reconnect timer is pending: arming a
    new one first clears the previous one. *)
Theorem one_pending_timer (w : World) :
  reachable w ->
  timers_wf (timers w) (reconnectTimeoutRef w)
  /\ length (List.filter t_pending (timers w)) <= 1.
Proof.
  intros Hr. pose proof (reachable_timers_wf w Hr) as H.
  split; [exact H|].
  apply filter_at_most_one. intros i j x y Hi Hj Hx Hy.
  destruct (H i x Hi) as [_ Ei]. destruct (H j y Hj) as [_ Ej].
  specialize (Ei Hx). specialize (Ej Hy). congruence.
Qed.

Lemma reachable_retrying : reachable retrying.
Proof. apply reachable_run, reachable_matched. Qed.

Lemma one_pending_timer_witness :
  List.filter t_pending (timers retrying)
  = [mkTimer true RECONNECT_DELAY (mkCaptured None false 0)]
  /\ length (List.filter t_pending (timers retrying)) <= 1.
Proof.
  split; [reflexivity|].
  apply (one_pending_timer retrying reachable_retrying).
Defined.

(** ** Local tracks *)

Lemma tracks_kept_refl (ts : list Track) : tracks_kept ts ts.
Proof. intros j t H. eauto. Qed.

Lemma tracks_kept_trans (a b c : list Track) :
  tracks_kept a b -> tracks_kept b c -> tracks_kept a c.
Proof.
  intros Hab Hbc j t H. destruct (Hab j t H) as (t1 & H1 & Hk1 & He1).
  destruct (Hbc j t1 H1) as (t2 & H2 & Hk2 & He2).
  exists t2. repeat split; congruence.
Qed.

Lemma tracks_kept_flipped (l : list nat) (ts : list Track) :
  tracks_kept ts (foldl flip_enabled ts l).
Proof.
  intros j t H. destruct (foldl_flip_enabled_kind l ts j) as [Hk He].
  rewrite H in Hk, He. cbn in Hk, He.
  destruct (foldl flip_enabled ts l !! j) as [t'|]; [|discriminate].
  exists t'. injection Hk as Hk. injection He as He. auto.
Qed.

Lemma tracks_kept_step (w : World) (e : Event) :
  tracks_kept (tracks w) (tracks (step w e)).
Proof.
  destruct e as [ts|msg|sid m o|i ev|t| | |]; cbn [step].
  - intros j t H. exists t. cbn. rewrite lookup_app_l; [auto|].
    eapply lookup_lt_Some, H.
  - apply tracks_kept_refl.
  - unfold_handlers. crush_step; apply tracks_kept_refl.
  - unfold_handlers. crush_step; apply tracks_kept_refl.
  - unfold_handlers. crush_step; apply tracks_kept_refl.
  - unfold_handlers. crush_step; apply tracks_kept_refl.
  - unfold toggleAudio. destruct (cap_localStream _); cbn;
      [apply tracks_kept_flipped | apply tracks_kept_refl].
  - unfold toggleVideo. destruct (cap_localStream _); cbn;
      [apply tracks_kept_flipped | apply tracks_kept_refl].
Qed.

(** X3. No event removes or stops a track: a track that is in the store
    is still there after any sequence of events, with the same kind and
    the same [ended] flag.  Tearing down a handle, a partner leaving, a
    re-match or a mute never ends a local track. *)
Theorem tracks_never_stopped (w : World) (es : list Event) (j : nat) (t : Track) :
  tracks w !! j = Some t ->
  exists t', tracks (run w es) !! j = Some t'
             /\ kind t' = kind t /\ ended t' = ended t.
Proof.
  revert j t. change (tracks_kept (tracks w) (tracks (run w es))).
  revert w. induction es as [|e es IH]; intros w; [apply tracks_kept_refl|].
  eapply tracks_kept_trans; [apply tracks_kept_step | apply IH].
Qed.

Lemma tracks_never_stopped_witness :
  exists t', tracks (run in_call [EvSocket 0 MsgPartnerLeft ok0; ClickToggleAudio]) !! 0
             = Some t'
             /\ kind t' = Audio /\ ended t' = false.
Proof.
  apply (tracks_never_stopped in_call
           [EvSocket 0 MsgPartnerLeft ok0; ClickToggleAudio] 0
           (mkTrack Audio true false)).
  reflexivity.
Defined.

(** ** The remote stream *)

Lemma remote_shown_ok_step (w : World) (e : Event) :
  one_handle w -> remote_shown_ok w -> remote_shown_ok (step w e).
Proof.
  intros Hone H. unfold remote_shown_ok in *.
  destruct e as [ts|msg|sid m o|i ev|t| | |]; cbn [step];
    unfold_handlers; crush_step;
    first [ exact H
          | intros Hn; exfalso; apply Hn; reflexivity
          | intros _; split; [reflexivity|];
            match goal with
            | Hl : pcs w !! ?i = Some ?p, Hc : pc_closed ?p = false |- _ =>
                rewrite (Hone i p Hl Hc); discriminate
            end
          | intros Hn; destruct (H Hn) as [Hc Hp]; split; [exact Hc|];
            first [exact Hp | congruence] ].
Qed.

(** X4. In every reachable state, a remote stream is held only while
    [isConnected] is true and a handle exists: every path that drops the
    handle or leaves the connected status also clears the remote stream. *)
Theorem remote_stream_implies_connected (w : World) :
  reachable w ->
  remoteStream (streams w) <> None ->
  isConnected (connectionState w) = true /\ peerConnectionRef w <> None.
Proof.
  revert w. apply (reachable_invariant remote_shown_ok).
  - intros Hn. exfalso. apply Hn. reflexivity.
  - intros w e Hr. apply remote_shown_ok_step, reachable_one_handle, Hr.
Qed.

Lemma reachable_in_call : reachable in_call.
Proof. apply reachable_run, reachable_mounted. Qed.

Lemma remote_stream_implies_connected_witness :
  remoteStream (streams in_call) = Some 1
  /\ isConnected (connectionState in_call) = true
  /\ peerConnectionRef in_call <> None.
Proof.
  split; [reflexivity|].
  apply (remote_stream_implies_connected in_call reachable_in_call).
  discriminate.
Defined.

(** ** Who sends offers *)

Lemma Forall_pcs_update_pc (P : PeerConn -> Prop) (i : nat)
    (f : PeerConn -> PeerConn) (w : World) :
  (forall p, pcs w !! i = Some p -> P p -> P (f p)) ->
  Forall P (pcs w) -> Forall P (pcs (update_pc i f w)).
Proof.
  intros Hf H. unfold update_pc. cbn.
  destruct (pcs w !! i) as [p|] eqn:Hi; [|exact H].
  apply Forall_insert; [exact H|]. apply (Hf p eq_refl).
  eapply Forall_lookup_1; eauto.
Qed.

Lemma Forall_pcs_cleanupPeerConnection (P : PeerConn -> Prop) (w : World) :
  (forall p, P p -> P (pc_set_closed p)) ->
  Forall P (pcs w) -> Forall P (pcs (cleanupPeerConnection w)).
Proof.
  intros Hc H. unfold cleanupPeerConnection.
  destruct (peerConnectionRef w) as [i|]; [|exact H].
  change (Forall P (pcs (update_pc i pc_set_closed w))).
  apply Forall_pcs_update_pc; [|exact H]. intros p _. apply Hc.
Qed.

Lemma Forall_pcs_handleDisconnect (P : PeerConn -> Prop) (w : World) :
  (forall p, P p -> P (pc_set_closed p)) ->
  Forall P (pcs w) -> Forall P (pcs (handleDisconnect w)).
Proof. apply Forall_pcs_cleanupPeerConnection. Qed.

(** Reduces a [Forall] over the connections of an updated state to the
    one over the connections before, leaving what each update must keep. *)
Ltac forall_pcs :=
  repeat (cbn;
    match goal with
    | H : Forall ?P (pcs ?w) |- Forall ?P (pcs ?w) => exact H
    | |- Forall _ (pcs (update_pc _ _ _)) =>
        apply Forall_pcs_update_pc; [intros ? ? ?|]
    | |- Forall _ (pcs (cleanupPeerConnection _)) =>
        apply Forall_pcs_cleanupPeerConnection; [intros ? ?|]
    | |- Forall _ (pcs (handleDisconnect _)) =>
        apply Forall_pcs_handleDisconnect; [intros ? ?|]
    | |- Forall _ (_ ++ _) => apply Forall_app_2
    | |- Forall _ [_] => apply Forall_singleton
    end).

Lemma pending_only_initiator_step (w : World) (e : Event) :
  Forall pending_only_initiator (pcs w) ->
  Forall pending_only_initiator (pcs (step w e)).
Proof.
  intros H. destruct e as [ts|msg|sid m o|i ev|t| | |]; cbn [step];
    unfold_handlers_pcs; crush_step; forall_pcs;
    unfold pending_only_initiator in *; cbn in *; try assumption; try lia.
  all: simplify_eq; intros _;
    match goal with
    | Hb : _ || negb ?b = false |- ?b = true =>
        destruct b; [reflexivity|]; by rewrite orb_true_r in Hb
    | Hp : 0 < pc_pending ?p -> ?g |- ?g => apply Hp; lia
    end.
Qed.

(** In every reachable state a negotiation is pending only on a handle
    whose callbacks hold the initiator role. *)
Lemma reachable_pending_only_initiator (w : World) :
  reachable w -> Forall pending_only_initiator (pcs w).
Proof.
  revert w. apply reachable_invariant; [constructor|].
  intros w e _. apply pending_only_initiator_step.
Qed.

Lemma offers_app_other (l : list (nat * Payload)) (p : nat * Payload) :
  is_offer p = false -> List.filter is_offer (l ++ [p]) = List.filter is_offer l.
Proof. intros H. rewrite List.filter_app. cbn. rewrite H. apply app_nil_r. Qed.

(** X5. An event adds an ["offer"] message to the log only when it is
    the resolution of a pending [setLocalDescription] on a live handle
    whose callbacks hold the initiator role; the offer is then sent on
    the current socket.  No other handler, and no handle created while
    the peer was not initiator, ever sends an offer. *)
Theorem offer_only_from_initiator_handle (w : World) (e : Event) :
  reachable w ->
  offers (step w e) <> offers w ->
  exists i d pc sid,
    e = EvPc i (SetLocalSettled (Some d))
    /\ pcs w !! i = Some pc
    /\ pc_closed pc = false
    /\ 0 < pc_pending pc
    /\ cap_isInitiator (pc_env pc) = true
    /\ socketRef w = Some sid
    /\ offers (step w e) = offers w ++ [(sid, EmitOffer sid (Some d))].
Proof.
  intros Hr. pose proof (reachable_pending_only_initiator w Hr) as Hinv.
  unfold offers.
  destruct e as [ts|msg|sid m o|i ev|t| | |]; cbn [step];
    unfold_handlers; crush_step;
    try (intros Hn; exfalso; apply Hn;
         first [reflexivity | apply offers_app_other; reflexivity]).
  - intros _.
    assert (i < length (pcs w)) as Hlt by (eapply lookup_lt_Some; eauto).
    rewrite list_lookup_insert_eq in Heqo2 by exact Hlt. injection Heqo2 as <-.
    rewrite list_lookup_insert_eq by (rewrite length_insert; exact Hlt).
    exists i, d, p, n0. repeat split; try assumption.
    + rewrite Heqn. lia.
    + apply (Forall_lookup_1 _ _ _ _ Hinv Heqo). rewrite Heqn. lia.
    + rewrite List.filter_app. reflexivity.
  - exfalso.
    assert (i < length (pcs w)) as Hlt by (eapply lookup_lt_Some; eauto).
    rewrite list_lookup_insert_eq in Heqo2 by exact Hlt. discriminate.
Qed.

Lemma offer_only_from_initiator_handle_witness :
  exists i d pc sid,
    EvPc 1 (SetLocalSettled (Some (mkDesc Offer 1)))
      = EvPc i (SetLocalSettled (Some d))
    /\ pcs negotiating !! i = Some pc
    /\ pc_closed pc = false
    /\ 0 < pc_pending pc
    /\ cap_isInitiator (pc_env pc) = true
    /\ socketRef negotiating = Some sid
    /\ offers (step negotiating (EvPc 1 (SetLocalSettled (Some (mkDesc Offer 1)))))
       = offers negotiating ++ [(sid, EmitOffer sid (Some d))].
Proof.
  apply (offer_only_from_initiator_handle negotiating
           (EvPc 1 (SetLocalSettled (Some (mkDesc Offer 1))))
           reachable_negotiating).
  vm_compute. discriminate.
Defined.

(** ** A peer whose sockets were all created while it was not initiator *)

Lemma Forall_sockets_insert_inv (l : list Socket) (sid : nat) (s : Socket) (b : bool) :
  l !! sid = Some s ->
  Forall socket_not_initiator (<[sid := mkSocket b (sock_env s)]> l) ->
  Forall socket_not_initiator l.
Proof.
  intros Hs H. apply Forall_lookup. intros i x Hi.
  destruct (decide (sid = i)) as [->|Hne].
  - assert (socket_not_initiator (mkSocket b (sock_env s))) as Hb.
    { eapply (Forall_lookup_1 _ _ i _ H).
      apply list_lookup_insert_eq. eapply lookup_lt_Some; eauto. }
    rewrite Hs in Hi. injection Hi as <-. exact Hb.
  - eapply (Forall_lookup_1 _ _ i x H). rewrite list_lookup_insert_ne; auto.
Qed.

(** Sockets are never removed, and a socket keeps the closure of its
    handlers. *)
Lemma sockets_not_initiator_before (w : World) (e : Event) :
  Forall socket_not_initiator (sockets (step w e)) ->
  Forall socket_not_initiator (sockets w).
Proof.
  destruct e as [ts|msg|sid m o|i ev|t| | |]; cbn [step];
    unfold_handlers; crush_step; try (intros H; exact H);
    try (intros H; apply Forall_app in H as [H _]; exact H);
    try (intros H; eapply Forall_sockets_insert_inv; eauto).
Qed.

Lemma never_initiator_pcs_step (w : World) (e : Event) :
  Forall socket_not_initiator (sockets w) ->
  Forall pc_not_initiator (pcs w) ->
  Forall pc_not_initiator (pcs (step w e)).
Proof.
  intros Hs H. destruct e as [ts|msg|sid m o|i ev|t| | |]; cbn [step];
    unfold_handlers_pcs; crush_step; forall_pcs;
    unfold pc_not_initiator in *; cbn in *; try assumption.
  all: simplify_eq;
    try (split; [eapply (Forall_lookup_1 socket_not_initiator); eauto
                | reflexivity]);
    try (exfalso;
         match goal with Hp : _ /\ _ |- _ => destruct Hp as [Hi0 Hp0] end;
         first [ congruence
               | rewrite Hi0 in *; rewrite orb_true_r in *; discriminate ]).
Qed.

Lemma never_initiator_timers_step (w : World) (e : Event) :
  Forall pc_not_initiator (pcs w) ->
  Forall timer_not_initiator (timers w) ->
  Forall timer_not_initiator (timers (step w e)).
Proof.
  intros Hp H. destruct e as [ts|msg|sid m o|i ev|t| | |]; cbn [step];
    unfold_handlers; crush_step; try assumption;
    repeat match goal with
           | |- Forall _ (_ ++ _) => apply Forall_app_2
           | |- Forall _ [_] => apply Forall_singleton
           | |- Forall _ (<[_ := _]> _) => apply Forall_insert
           | |- Forall _ _ => assumption
           end;
    unfold timer_not_initiator; cbn;
    try (eapply (Forall_lookup_1 timer_not_initiator); eauto; fail);
    try (eapply (Forall_lookup_1 pc_not_initiator (pcs w)); eauto; fail).
Qed.

Lemma never_initiator_offers_step (w : World) (e : Event) :
  Forall pc_not_initiator (pcs w) -> offers (step w e) = offers w.
Proof.
  intros Hp. unfold offers.
  destruct e as [ts|msg|sid m o|i ev|t| | |]; cbn [step];
    unfold_handlers; crush_step;
    try first [reflexivity | apply offers_app_other; reflexivity].
  all: exfalso;
    match goal with
    | Hl : pcs _ !! ?i = Some ?p, Hn : pc_pending ?p = S _ |- _ =>
        destruct (Forall_lookup_1 _ _ _ _ Hp Hl) as [_ H0]; congruence
    end.
Qed.

Lemma never_initiator_step (w : World) (e : Event) :
  (Forall socket_not_initiator (sockets w) -> never_initiator w) ->
  Forall socket_not_initiator (sockets (step w e)) -> never_initiator (step w e).
Proof.
  intros IH Hs'. pose proof (sockets_not_initiator_before w e Hs') as Hs.
  destruct (IH Hs) as (Hp & Ht & Ho). repeat split.
  - by apply never_initiator_pcs_step.
  - by apply never_initiator_timers_step.
  - rewrite never_initiator_offers_step; assumption.
Qed.

(** X6. If every socket of a state reached from the mounted one was
    created while [isInitiator] was false (the socket created at mount is
    one), then no handle and no timer of that state holds the initiator
    role, no negotiation is pending, and the peer has never sent an
    offer: the ["match"] handler sets [isInitiator] in the state, but the
    handle it creates keeps the callbacks of the render that registered
    the socket handlers. *)
Theorem no_offer_without_initiator_socket (es : list Event) :
  Forall socket_not_initiator (sockets (run mounted es)) ->
  Forall pc_not_initiator (pcs (run mounted es))
  /\ Forall timer_not_initiator (timers (run mounted es))
  /\ offers_emitted (run mounted es) = 0.
Proof.
  intros Hs.
  enough (never_initiator (run mounted es)) as (Hp & Ht & Ho).
  { repeat split; try assumption. unfold offers_emitted. fold (offers (run mounted es)).
    rewrite Ho. reflexivity. }
  revert Hs.
  apply (run_invariant
           (fun w => Forall socket_not_initiator (sockets w) -> never_initiator w)).
  - intros w e. apply never_initiator_step.
  - intros _. repeat split; constructor.
Qed.

Lemma no_offer_without_initiator_socket_witness :
  offers_emitted
    (run mounted (three_failures ++ [EvPc 3 NegotiationNeeded;
                                    EvPc 3 (SetLocalSettled (Some (mkDesc Offer 1)))]))
  = 0.
Proof.
  apply (no_offer_without_initiator_socket
           (three_failures ++ [EvPc 3 NegotiationNeeded;
                               EvPc 3 (SetLocalSettled (Some (mkDesc Offer 1)))])).
  vm_compute. repeat constructor.
Defined.

(** ** The log of sent messages *)

Lemma emitted_step (w : World) (e : Event) :
  exists l, emitted (step w e) = emitted w ++ l /\ length l <= 1.
Proof.
  destruct e as [ts|msg|sid m o|i ev|t| | |]; cbn [step];
    unfold_handlers; crush_step;
    first [ exists []; split; [symmetry; apply app_nil_r | cbn; lia]
          | eexists [_]; split; [reflexivity | cbn; lia] ].
Qed.

(** X7. The log of sent messages only grows, and by at most one message
    per event: whatever the events, what was sent before is a prefix of
    what has been sent after, and a run of [n] events sends at most [n]
    messages. *)
Theorem emitted_grows (w : World) (es : list Event) :
  exists l, emitted (run w es) = emitted w ++ l /\ length l <= length es.
Proof.
  revert w. induction es as [|e es IH]; intros w.
  - exists []. split; [symmetry; apply app_nil_r | reflexivity].
  - destruct (emitted_step w e) as (l1 & H1 & Hl1).
    destruct (IH (step w e)) as (l2 & H2 & Hl2).
    exists (l1 ++ l2). split.
    + change (run w (e :: es)) with (run (step w e) es).
      rewrite H2, H1. symmetry. apply app_assoc.
    + rewrite length_app. cbn. lia.
Qed.

(** ** Disconnecting *)

(** X8. [handleDisconnect] is idempotent and absorbs
    [cleanupPeerConnection] on either side; it sends nothing and leaves
    the local stream, the tracks, the error text, the retry counter, the
    negotiation flags, the timers and the sockets as they were. *)
Theorem handleDisconnect_idempotent (w : World) :
  let w1 := handleDisconnect w in
  handleDisconnect w1 = w1
  /\ cleanupPeerConnection w1 = w1
  /\ handleDisconnect (cleanupPeerConnection w) = w1
  /\ emitted w1 = emitted w
  /\ localStream (streams w1) = localStream (streams w)
  /\ tracks w1 = tracks w
  /\ error (connectionState w1) = error (connectionState w)
  /\ reconnectAttempts (connectionState w1) = reconnectAttempts (connectionState w)
  /\ isNegotiatingRef w1 = isNegotiatingRef w
  /\ makingOfferRef w1 = makingOfferRef w
  /\ timers w1 = timers w
  /\ reconnectTimeoutRef w1 = reconnectTimeoutRef w
  /\ sockets w1 = sockets w.
Proof.
  intros w1. subst w1. unfold handleDisconnect, cleanupPeerConnection.
  destruct w as [st cs ct sa tr ps so ti [i|] sr ng mo rt em]; cbn;
    repeat match goal with |- _ /\ _ => split end; reflexivity.
Qed.

(** X9. When the partner leaves, in any reachable state: no peer
    connection is left live, the handle reference and the remote stream
    are null, the status is "Partner left. You can find a new partner."
    with [isConnected], [isWaiting] and [isInitiator] false; nothing is
    sent, the local stream and its tracks are untouched, and a pending
    reconnect timer is not cancelled. *)
Theorem partner_left_tears_down (w : World) :
  reachable w ->
  let w' := on_partner_left w in
  live_handles w' = []
  /\ peerConnectionRef w' = None
  /\ remoteStream (streams w') = None
  /\ connectionState w' =
       mkConn false false (error (connectionState w))
         "Partner left. You can find a new partner." false
         (reconnectAttempts (connectionState w))
  /\ emitted w' = emitted w
  /\ localStream (streams w') = localStream (streams w)
  /\ tracks w' = tracks w
  /\ timers w' = timers w
  /\ reconnectTimeoutRef w' = reconnectTimeoutRef w.
Proof.
  intros Hr w'. subst w'. unfold on_partner_left.
  pose proof (reachable_one_handle w Hr) as Hone.
  split.
  { unfold live_handles.
    change (pcs (setConnectionState
                   (cs_status "Partner left. You can find a new partner.")
                   (handleDisconnect w)))
      with (pcs (cleanupPeerConnection w)).
    apply all_closed_no_live, cleanupPeerConnection_all_closed, Hone. }
  cbn. rewrite handleDisconnect_ref, handleDisconnect_remoteStream,
    handleDisconnect_connectionState, handleDisconnect_emitted.
  change (streams (handleDisconnect w)) with (streams (cleanupPeerConnection w)).
  change (tracks (handleDisconnect w)) with (tracks (cleanupPeerConnection w)).
  rewrite cleanupPeerConnection_localStream, cleanupPeerConnection_tracks.
  repeat match goal with |- _ /\ _ => split end; try reflexivity;
    unfold handleDisconnect, cleanupPeerConnection;
    destruct (peerConnectionRef w); reflexivity.
Qed.

Lemma partner_left_tears_down_witness :
  live_handles (on_partner_left in_call) = []
  /\ tracks (on_partner_left in_call)
     = [mkTrack Audio true false; mkTrack Video true false].
Proof.
  destruct (partner_left_tears_down in_call reachable_in_call)
    as (H1 & _ & _ & _ & _ & _ & H2 & _).
  split; [exact H1|]. rewrite H2. reflexivity.
Defined.

(** ** Unmounting *)

Lemma no_pending_filter (l : list Timer) :
  (forall t tm, l !! t = Some tm -> t_pending tm = false) ->
  List.filter t_pending l = [].
Proof.
  induction l as [|a l IH]; intros H; cbn; [reflexivity|].
  rewrite (H 0 a eq_refl). apply IH. intros t tm Ht. apply (H (S t) tm Ht).
Qed.

(** X10. The cleanup of the mount effect, run in any reachable state,
    leaves no live peer connection and no pending reconnect timer and
    disconnects the socket created at mount, but it stops no track: the
    local stream it closes over is the null one of the first render.
    Sockets created later are left as they are. *)
Theorem unmount_cleanup (w : World) :
  reachable w ->
  live_handles (unmount w) = []
  /\ List.filter t_pending (timers (unmount w)) = []
  /\ tracks (unmount w) = tracks w
  /\ socket_connected (unmount w) 0 = false
  /\ (forall sid, sid <> 0 -> sockets (unmount w) !! sid = sockets w !! sid)
  /\ emitted (unmount w) = emitted w.
Proof.
  intros Hr. pose proof (reachable_one_handle w Hr) as Hone.
  pose proof (reachable_timers_wf w Hr) as Ht.
  unfold unmount, effect_cleanup. cbn zeta.
  change (cap_localStream (snapshot first_render)) with (@None MediaStream).
  change (socketRef mounted) with (Some 0). cbn match.
  set (w1 := match reconnectTimeoutRef w with
             | Some t => clearTimeout t w
             | None => w
             end).
  assert (pcs w1 = pcs w /\ peerConnectionRef w1 = peerConnectionRef w
          /\ tracks w1 = tracks w /\ emitted w1 = emitted w
          /\ sockets w1 = sockets w) as (Hp & Href & Htr & Hem & Hso).
  { subst w1. destruct (reconnectTimeoutRef w); repeat split; reflexivity. }
  assert (one_handle w1) as Hone1.
  { intros i pc. rewrite Hp, Href. apply Hone. }
  split.
  { unfold live_handles.
    change (pcs (set_socket_connected 0 false (cleanupPeerConnection w1)))
      with (pcs (cleanupPeerConnection w1)).
    apply all_closed_no_live, cleanupPeerConnection_all_closed, Hone1. }
  split.
  { assert (timers (set_socket_connected 0 false (cleanupPeerConnection w1))
            = timers w1) as ->.
    { unfold cleanupPeerConnection. destruct (peerConnectionRef w1); reflexivity. }
    apply no_pending_filter. intros t tm Hl.
    destruct (timers_wf_clear_ref w None Ht t tm Hl) as [_ Hnp].
    destruct (t_pending tm); [|reflexivity]. specialize (Hnp eq_refl). discriminate. }
  split.
  { change (tracks (set_socket_connected 0 false (cleanupPeerConnection w1)))
      with (tracks (cleanupPeerConnection w1)).
    rewrite cleanupPeerConnection_tracks. exact Htr. }
  assert (sockets (cleanupPeerConnection w1) = sockets w) as Hs.
  { rewrite <- Hso. unfold cleanupPeerConnection.
    destruct (peerConnectionRef w1); reflexivity. }
  split.
  { unfold socket_connected, set_socket_connected. cbn. rewrite Hs.
    destruct (sockets w !! 0) as [s|] eqn:H0.
    - rewrite list_lookup_insert_eq by (eapply lookup_lt_Some; eauto). reflexivity.
    - rewrite H0. reflexivity. }
  split.
  { intros sid Hne. unfold set_socket_connected. cbn. rewrite Hs.
    destruct (sockets w !! 0); [|reflexivity].
    apply list_lookup_insert_ne. auto. }
  change (emitted (set_socket_connected 0 false (cleanupPeerConnection w1)))
    with (emitted (cleanupPeerConnection w1)).
  rewrite cleanupPeerConnection_emitted. exact Hem.
Qed.

Lemma unmount_cleanup_witness :
  live_handles (unmount in_call) = []
  /\ tracks (unmount in_call) = [mkTrack Audio true false; mkTrack Video true false].
Proof.
  destruct (unmount_cleanup in_call reachable_in_call) as (H1 & _ & H2 & _).
  split; [exact H1|]. rewrite H2. reflexivity.
Defined.

(** ** Sockets *)

(** X11. [findPartner] on a socket that is not connected sends no
    request and records none: the handle and the connection status are
    kept, and a new socket, not yet connected and with handlers closing
    over [env], is created beside the old ones and becomes the current
    one. *)
Theorem findPartner_not_connected (env : Captured) (w : World) :
  match socketRef w with
  | Some sid => socket_connected w sid = false
  | None => True
  end ->
  let w' := findPartner env w in
  emitted w' = emitted w
  /\ connectionState w' = connectionState w
  /\ peerConnectionRef w' = peerConnectionRef w
  /\ pcs w' = pcs w
  /\ streams w' = streams w
  /\ sockets w' = sockets w ++ [mkSocket false env]
  /\ socketRef w' = Some (length (sockets w)).
Proof.
  intros H. unfold findPartner, initializeSocket.
  destruct (socketRef w) as [sid|]; [rewrite H|]; cbn;
    repeat match goal with |- _ /\ _ => split end; reflexivity.
Qed.

Lemma findPartner_not_connected_witness :
  emitted (findPartner (snapshot mounted) mounted) = emitted mounted
  /\ sockets (findPartner (snapshot mounted) mounted)
     = sockets mounted ++ [mkSocket false (snapshot mounted)].
Proof.
  destruct (findPartner_not_connected (snapshot mounted) mounted) as (H1 & _ & _ & _ & _ & H2 & _).
  - reflexivity.
  - split; [exact H1 | exact H2].
Defined.

Lemma current_socket_step (w : World) (e : Event) :
  socketRef w = Some (length (sockets w) - 1) /\ sockets w <> [] ->
  socketRef (step w e) = Some (length (sockets (step w e)) - 1)
  /\ sockets (step w e) <> [].
Proof.
  intros [H Hne].
  assert (forall (l : list Socket) x, l ++ [x] <> []) as Happ
    by (intros l x; destruct l; discriminate).
  assert (forall (l : list Socket) i x, l <> [] -> <[i := x]> l <> []) as Hins.
  { intros l i x Hl Hn. apply Hl. apply (f_equal length) in Hn.
    rewrite length_insert in Hn. by destruct l. }
  destruct e as [ts|msg|sid m o|i ev|t| | |]; cbn [step];
    unfold_handlers; crush_step;
    rewrite ?length_app, ?length_insert; cbn;
    (split; [first [exact H | f_equal; lia | congruence]
            | first [exact Hne | apply Happ | apply Hins; exact Hne]]).
Qed.

(** X12. In every reachable state there is a current socket, and it is
    the most recently created one; and [initializeSocket] on a state whose
    current socket is connected changes nothing, so no second transport
    is opened beside a connected one. *)
Theorem current_socket_is_latest (w : World) :
  reachable w ->
  socketRef w = Some (length (sockets w) - 1)
  /\ sockets w <> []
  /\ (forall env, socket_connected w (length (sockets w) - 1) = true ->
                  initializeSocket env w = w).
Proof.
  intros Hr.
  assert (socketRef w = Some (length (sockets w) - 1) /\ sockets w <> []) as [H Hne].
  { revert w Hr.
    apply (reachable_invariant
             (fun w => socketRef w = Some (length (sockets w) - 1) /\ sockets w <> [])).
    - split; [reflexivity | discriminate].
    - intros w e _. apply current_socket_step. }
  repeat split; try assumption.
  intros env Hc. unfold initializeSocket. rewrite H, Hc. reflexivity.
Qed.

Lemma current_socket_is_latest_witness :
  socketRef initiator_matched = Some 1
  /\ initializeSocket initiator_env initiator_matched = initiator_matched.
Proof.
  assert (reachable initiator_matched) as Hr
    by (apply reachable_run, reachable_mounted).
  destruct (current_socket_is_latest initiator_matched Hr) as (H1 & _ & H2).
  split; [exact H1|]. apply H2. reflexivity.
Defined.

(** ** Matching *)

(** X13. On ["match"], in any reachable state, the peer becomes
    initiator and stops waiting, [isConnected] and the retry counter stay
    as they were, the remote stream is cleared and nothing is sent (the
    handler itself sends no offer).  If the connection can be
    constructed, the only live peer connection afterwards is a fresh one
    in the stable state with the tracks of the closed-over local stream;
    if construction fails, no connection is live, the handle reference
    is null and the error is "Failed to create peer connection". *)
Theorem match_replaces_handle (env : Captured) (o : Outcome) (w : World) :
  reachable w ->
  let w' := on_match env o w in
  isInitiator (connectionState w') = true
  /\ isWaiting (connectionState w') = false
  /\ isConnected (connectionState w') = isConnected (connectionState w)
  /\ reconnectAttempts (connectionState w') = reconnectAttempts (connectionState w)
  /\ remoteStream (streams w') = None
  /\ emitted w' = emitted w
  /\ (ctor_ok o = true ->
      peerConnectionRef w' = Some (length (pcs w))
      /\ live_handles w'
         = [mkPC false Stable None None (default [] (cap_localStream env)) []
              IceNew env 0]
      /\ error (connectionState w') = error (connectionState w))
  /\ (ctor_ok o = false ->
      peerConnectionRef w' = None
      /\ live_handles w' = []
      /\ error (connectionState w') = Some "Failed to create peer connection").
Proof.
  intros Hr w'. subst w'. unfold on_match, createPeerConnection.
  set (w1 := setConnectionState _ w).
  assert (one_handle w1) as Hone by exact (reachable_one_handle w Hr).
  pose proof (cleanupPeerConnection_all_closed w1 Hone) as Hclosed.
  pose proof (all_closed_no_live _ Hclosed) as Hlive.
  pose proof (cleanupPeerConnection_connectionState w1) as Hcs.
  destruct (ctor_ok o); cbn [snd]; cbn.
  - rewrite Hcs, cleanupPeerConnection_remoteStream, cleanupPeerConnection_emitted,
      cleanupPeerConnection_length.
    repeat match goal with |- _ /\ _ => split end; try reflexivity; try discriminate.
    intros _. repeat split.
    unfold live_handles. cbn. rewrite List.filter_app, Hlive.
    destruct (cap_localStream env); reflexivity.
  - rewrite Hcs, cleanupPeerConnection_remoteStream, cleanupPeerConnection_emitted,
      cleanupPeerConnection_ref.
    repeat match goal with |- _ /\ _ => split end; try reflexivity; try discriminate.
    intros _. repeat split. exact Hlive.
Qed.

Lemma match_replaces_handle_witness :
  live_handles (on_match initiator_env ok0 in_call)
  = [mkPC false Stable None None [0; 1] [] IceNew initiator_env 0]
  /\ isConnected (connectionState (on_match initiator_env ok0 in_call)) = true.
Proof.
  destruct (match_replaces_handle initiator_env ok0 in_call reachable_in_call)
    as (_ & _ & H3 & _ & _ & _ & H7 & _).
  split; [apply H7; reflexivity | rewrite H3; reflexivity].
Defined.

(** ** Muting, continued *)

Lemma foldl_flip_enabled_lookup (l : list nat) (ts : list Track) (j : nat) :
  NoDup l ->
  foldl flip_enabled ts l !! j =
    if bool_decide (j ∈ l)
    then (fun t => mkTrack (kind t) (negb (enabled t)) (ended t)) <$> ts !! j
    else ts !! j.
Proof.
  revert ts. induction l as [|a l IH]; intros ts Hnd; cbn; [reflexivity|].
  apply NoDup_cons in Hnd as [Ha Hnd]. rewrite (IH _ Hnd).
  rewrite flip_enabled_lookup.
  destruct (decide (a = j)) as [->|Hne].
  - rewrite bool_decide_eq_false_2 by exact Ha.
    rewrite bool_decide_eq_true_2 by (left; reflexivity). reflexivity.
  - destruct (bool_decide (j ∈ l)) eqn:Hin.
    + apply bool_decide_eq_true_1 in Hin.
      rewrite bool_decide_eq_true_2 by (right; exact Hin). reflexivity.
    + apply bool_decide_eq_false_1 in Hin.
      rewrite bool_decide_eq_false_2; [reflexivity|].
      intros Hj. apply list_elem_of_In in Hj. destruct Hj as [Hj|Hj]; [congruence|].
      apply Hin, list_elem_of_In, Hj.
Qed.

Lemma getTracksOfKind_NoDup (k : TrackKind) (ts : list Track) (ms : list nat) :
  NoDup ms -> NoDup (getTracksOfKind k ts ms).
Proof.
  intros H. apply NoDup_ListNoDup. apply List.NoDup_filter.
  apply NoDup_ListNoDup. exact H.
Qed.

Lemma getTracksOfKind_elem (k : TrackKind) (ts : list Track) (ms : list nat) (j : nat) :
  j ∈ getTracksOfKind k ts ms <->
  j ∈ ms /\ exists t, ts !! j = Some t /\ kind t = k.
Proof.
  unfold getTracksOfKind. rewrite !list_elem_of_In, filter_In.
  split.
  - intros [Hin Hk]. split; [exact Hin|].
    destruct (ts !! j) as [t|]; [|discriminate]. exists t. split; [reflexivity|].
    destruct (kind t), k; try discriminate; reflexivity.
  - intros [Hin (t & -> & <-)]. split; [exact Hin|]. by destruct (kind t).
Qed.

(** What a toggle does to the track store. *)
Lemma toggle_tracks_lookup (k : TrackKind) (ts : list Track) (ms : list nat)
    (j : nat) (t : Track) :
  NoDup ms -> ts !! j = Some t ->
  foldl flip_enabled ts (getTracksOfKind k ts ms) !! j =
    Some (if bool_decide (j ∈ ms) && kind_eqb (kind t) k
          then mkTrack (kind t) (negb (enabled t)) (ended t)
          else t).
Proof.
  intros Hnd Hj.
  rewrite foldl_flip_enabled_lookup by (by apply getTracksOfKind_NoDup).
  rewrite Hj. cbn.
  destruct (bool_decide (j ∈ ms)) eqn:Hin, (kind_eqb (kind t) k) eqn:Hk; cbn.
  - rewrite bool_decide_eq_true_2; [reflexivity|].
    apply getTracksOfKind_elem. apply bool_decide_eq_true_1 in Hin.
    split; [exact Hin|]. exists t. split; [exact Hj|].
    destruct (kind t), k; try discriminate; reflexivity.
  - rewrite bool_decide_eq_false_2; [reflexivity|].
    intros He. apply getTracksOfKind_elem in He as [_ (t' & Ht' & Hk')].
    rewrite Hj in Ht'. injection Ht' as <-. rewrite Hk' in Hk.
    destruct k; discriminate.
  - rewrite bool_decide_eq_false_2; [reflexivity|].
    intros He. apply getTracksOfKind_elem in He as [He _].
    apply bool_decide_eq_false_1 in Hin. contradiction.
  - rewrite bool_decide_eq_false_2; [reflexivity|].
    intros He. apply getTracksOfKind_elem in He as [He _].
    apply bool_decide_eq_false_1 in Hin. contradiction.
Qed.

(** X14. With a local stream of distinct tracks, [toggleAudio] negates
    [enabled] on exactly the audio tracks of that stream, and
    [toggleVideo] on exactly its video tracks; every other track of the
    store is unchanged; [isMuted], respectively [isVideoOff], is negated.
    Without a local stream either button does nothing at all. *)
Theorem toggle_flips_exactly_its_kind (env : Captured) (w : World) :
  (cap_localStream env = None ->
   toggleAudio env w = w /\ toggleVideo env w = w)
  /\ (forall ms, cap_localStream env = Some ms -> NoDup ms ->
      (forall j t, tracks w !! j = Some t ->
         tracks (toggleAudio env w) !! j =
           Some (if bool_decide (j ∈ ms) && kind_eqb (kind t) Audio
                 then mkTrack (kind t) (negb (enabled t)) (ended t) else t)
         /\ tracks (toggleVideo env w) !! j =
              Some (if bool_decide (j ∈ ms) && kind_eqb (kind t) Video
                    then mkTrack (kind t) (negb (enabled t)) (ended t) else t))
      /\ controls (toggleAudio env w)
         = mkControls (negb (isMuted (controls w))) (isVideoOff (controls w))
      /\ controls (toggleVideo env w)
         = mkControls (isMuted (controls w)) (negb (isVideoOff (controls w)))).
Proof.
  split.
  - intros Hn. unfold toggleAudio, toggleVideo. rewrite Hn. split; reflexivity.
  - intros ms Hs Hnd. unfold toggleAudio, toggleVideo. rewrite Hs. cbn.
    split; [|split; reflexivity].
    intros j t Hj. split; by apply toggle_tracks_lookup.
Qed.

Lemma toggle_flips_exactly_its_kind_witness :
  tracks (toggleAudio (snapshot in_call) in_call)
  = [mkTrack Audio false false; mkTrack Video true false]
  /\ tracks (toggleVideo (snapshot in_call) in_call) !! 1
     = Some (mkTrack Video false false)
  /\ toggleAudio (snapshot mounted) mounted = mounted.
Proof.
  destruct (toggle_flips_exactly_its_kind (snapshot in_call) in_call) as [_ H].
  destruct (H [0; 1] eq_refl) as (Ht & _).
  { apply NoDup_cons. split; [|apply NoDup_singleton].
    intros Hin. apply list_elem_of_In in Hin. destruct Hin as [Hin|[]].
    discriminate Hin. }
  destruct (toggle_flips_exactly_its_kind (snapshot mounted) mounted) as [H0 _].
  split; [|split].
  - apply list_eq. intros j.
    destruct j as [|[|j]]; [| |reflexivity].
    + destruct (Ht 0 (mkTrack Audio true false) eq_refl) as [Ha _].
      rewrite Ha. reflexivity.
    + destruct (Ht 1 (mkTrack Video true false) eq_refl) as [Ha _].
      rewrite Ha. reflexivity.
  - destruct (Ht 1 (mkTrack Video true false) eq_refl) as [_ Hv].
    rewrite Hv. reflexivity.
  - apply H0. reflexivity.
Defined.

Lemma foldl_flip_enabled_swap (l1 l2 : list nat) (ts : list Track) :
  foldl flip_enabled (foldl flip_enabled ts l1) l2
  = foldl flip_enabled (foldl flip_enabled ts l2) l1.
Proof.
  revert ts. induction l1 as [|a l1 IH]; intros ts; cbn; [reflexivity|].
  rewrite IH. rewrite foldl_flip_enabled_comm. reflexivity.
Qed.

(** X15. The two mute buttons commute: muting audio then video gives the
    same state as muting video then audio. *)
Theorem toggleAudio_toggleVideo_commute (env : Captured) (w : World) :
  toggleAudio env (toggleVideo env w) = toggleVideo env (toggleAudio env w).
Proof.
  unfold toggleAudio, toggleVideo.
  destruct (cap_localStream env) as [ms|]; [|reflexivity].
  destruct w as [st cs ct sa tr ps so ti pr sr ng mo rt em].
  unfold setControls, set_tracks. cbn.
  f_equal. rewrite !getTracksOfKind_flipped. apply foldl_flip_enabled_swap.
Qed.

(** ** ICE failure and negotiation errors, by handle *)

(** X16. What the ICE handler of a handle does on [failed] is decided by
    the retry count its callbacks hold.  Below the ceiling the current
    counter goes up by one and one timer running [findPartner] after
    [RECONNECT_DELAY] is armed and stored in [reconnectTimeoutRef], the
    handle being kept until the timer fires.  At or above the ceiling the
    handle is dropped, the error "Connection failed after multiple
    attempts" is set, the counter is kept and no timer is armed. *)
Theorem ice_failed_by_captured_count (i : nat) (pc : PeerConn) (w : World) :
  pcs w !! i = Some pc ->
  let w' := oniceconnectionstatechange i IceFailed w in
  (cap_reconnectAttempts (pc_env pc) < MAX_RECONNECT_ATTEMPTS ->
   reconnectAttempts (connectionState w')
     = reconnectAttempts (connectionState w) + 1
   /\ reconnectTimeoutRef w' = Some (length (timers w))
   /\ timers w' !! length (timers w)
      = Some (mkTimer true RECONNECT_DELAY (pc_env pc))
   /\ peerConnectionRef w' = peerConnectionRef w)
  /\ (MAX_RECONNECT_ATTEMPTS <= cap_reconnectAttempts (pc_env pc) ->
      peerConnectionRef w' = None
      /\ error (connectionState w')
         = Some "Connection failed after multiple attempts"
      /\ reconnectAttempts (connectionState w')
         = reconnectAttempts (connectionState w)
      /\ timers w' = timers w
      /\ reconnectTimeoutRef w' = reconnectTimeoutRef w).
Proof.
  intros Hi w'. split.
  - intros Hlt. exact (ice_failed_below_ceiling i pc w Hi Hlt).
  - intros Hge. exact (ice_failed_at_ceiling i pc w Hi Hge).
Qed.

Lemma ice_failed_by_captured_count_witness :
  reconnectAttempts
    (connectionState (oniceconnectionstatechange 0 IceFailed matched)) = 1
  /\ timers (oniceconnectionstatechange 0 IceFailed matched) !! 0
     = Some (mkTimer true RECONNECT_DELAY (mkCaptured None false 0))
  /\ peerConnectionRef (oniceconnectionstatechange 4 IceFailed ceiling_handle) = None
  /\ timers (oniceconnectionstatechange 4 IceFailed ceiling_handle)
     = timers ceiling_handle.
Proof.
  assert (cap_reconnectAttempts (pc_env matched_pc) < MAX_RECONNECT_ATTEMPTS) as Hlt
    by (cbn; unfold MAX_RECONNECT_ATTEMPTS; lia).
  destruct (ice_failed_by_captured_count 0 matched_pc matched eq_refl) as [Hlow _].
  destruct (Hlow Hlt) as (H1 & _ & H3 & _).
  assert (pcs ceiling_handle !! 4
          = Some (mkPC false Stable None None [] [] IceNew
                    (mkCaptured None true 3) 0)) as Hl
    by (vm_compute; reflexivity).
  destruct (ice_failed_by_captured_count 4 _ ceiling_handle Hl) as [_ Hhigh].
  destruct Hhigh as (H4 & _ & _ & H5 & _);
    [cbn; unfold MAX_RECONNECT_ATTEMPTS; lia|].
  split; [rewrite H1; reflexivity|]. split; [exact H3|].
  split; [exact H4 | exact H5].
Defined.

(** X17. When the [setLocalDescription] of a trigger rejects, the error
    is caught: "Connection negotiation failed" is shown, nothing is sent,
    both flags are released, and the handle is kept as it was (live, same
    descriptions) with one pending negotiation fewer, so that a later
    trigger can negotiate again. *)
Theorem negotiation_error_keeps_handle (i : nat) (pc : PeerConn) (w : World) :
  pcs w !! i = Some pc -> 0 < pc_pending pc ->
  let w' := onnegotiationneeded_settled i None w in
  error (connectionState w') = Some "Connection negotiation failed"
  /\ status (connectionState w') = status (connectionState w)
  /\ emitted w' = emitted w
  /\ isNegotiatingRef w' = false /\ makingOfferRef w' = false
  /\ peerConnectionRef w' = peerConnectionRef w
  /\ pcs w' !! i = Some (pc_set_pending (pc_pending pc - 1) pc)
  /\ pc_closed (pc_set_pending (pc_pending pc - 1) pc) = pc_closed pc.
Proof.
  intros Hi Hp w'. subst w'. unfold onnegotiationneeded_settled. rewrite Hi.
  destruct (pc_pending pc) as [|n] eqn:Hn; [lia|]. cbn zeta.
  replace (S n - 1) with n by lia.
  repeat match goal with |- _ /\ _ => split end; try reflexivity.
  change (pcs (update_pc i (pc_set_pending n) w) !! i = Some (pc_set_pending n pc)).
  rewrite update_pc_lookup, decide_True by reflexivity. rewrite Hi. reflexivity.
Qed.

Lemma negotiation_error_keeps_handle_witness :
  error (connectionState (onnegotiationneeded_settled 1 None negotiating))
  = Some "Connection negotiation failed"
  /\ peerConnectionRef (onnegotiationneeded_settled 1 None negotiating) = Some 1.
Proof.
  assert (0 < pc_pending negotiating_pc) as Hp by (cbn; lia).
  destruct (negotiation_error_keeps_handle 1 negotiating_pc negotiating eq_refl Hp)
    as (H1 & _ & _ & _ & _ & H6 & _).
  split; [exact H1 | exact H6].
Defined.

(** ** The text chat *)

Lemma trimStart_nil (s : Chat.JsString) :
  Chat.trimStart s = [] <-> forallb Chat.is_white_space s = true.
Proof.
  induction s as [|c r IH]; cbn; [tauto|].
  destruct (Chat.is_white_space c); cbn; [exact IH|].
  split; discriminate.
Qed.

Lemma trimStart_suffix (s : Chat.JsString) :
  exists p, s = p ++ Chat.trimStart s /\ forallb Chat.is_white_space p = true.
Proof.
  induction s as [|c r IH]; cbn.
  - exists []. split; reflexivity.
  - destruct (Chat.is_white_space c) eqn:Hc.
    + destruct IH as (p & Hp & Hws). exists (c :: p). split.
      * cbn. f_equal. exact Hp.
      * cbn. rewrite Hc. exact Hws.
    + exists []. split; reflexivity.
Qed.

Lemma forallb_rev {A} (f : A -> bool) (l : list A) :
  forallb f (rev l) = forallb f l.
Proof.
  induction l as [|a l IH]; cbn; [reflexivity|].
  rewrite forallb_app, IH. cbn. rewrite andb_true_r. apply andb_comm.
Qed.

(** [trim] gives the empty string exactly on strings made of white space
    only. *)
Lemma trim_nil (s : Chat.JsString) :
  Chat.trim s = [] <-> forallb Chat.is_white_space s = true.
Proof.
  unfold Chat.trim, Chat.trimEnd. split.
  - intros H. apply (f_equal (@rev N)) in H. rewrite rev_involutive in H.
    cbn in H. apply trimStart_nil in H. rewrite forallb_rev in H.
    destruct (trimStart_suffix s) as (p & Hp & Hws).
    rewrite Hp, forallb_app, Hws, H. reflexivity.
  - intros H. apply trimStart_nil in H. rewrite H. reflexivity.
Qed.

(** X18. [sendMessage] sends exactly when the input contains a character
    that is not white space, a socket exists and [isConnected] is true.
    It then sends one message whose text is the input as typed (not
    trimmed) and which carries no sender, clears the input and leaves the
    transcript as it was; otherwise nothing is sent and the state,
    including the input, is unchanged. *)
Theorem sendMessage_guard (socket : option nat) (isConnected : bool) (now : nat)
    (s : Chat.State) :
  let r := Chat.sendMessage socket isConnected now s in
  (snd r <> None <->
   forallb Chat.is_white_space (Chat.inputMessage s) = false
   /\ socket <> None /\ isConnected = true)
  /\ (snd r = None -> fst r = s)
  /\ (forall sid m, snd r = Some (sid, m) ->
        socket = Some sid
        /\ m = Chat.mkMessage (Chat.inputMessage s) None now
        /\ fst r = Chat.mkState (Chat.messages s) []).
Proof.
  intros r. subst r. unfold Chat.sendMessage.
  destruct (Chat.trim (Chat.inputMessage s)) as [|c t] eqn:Ht.
  - apply trim_nil in Ht. cbn. split; [split|split].
    + intros H. exfalso. apply H. reflexivity.
    + intros (H & _). congruence.
    + intros _. reflexivity.
    + intros sid m H. discriminate H.
  - assert (forallb Chat.is_white_space (Chat.inputMessage s) = false) as Hws.
    { destruct (forallb Chat.is_white_space (Chat.inputMessage s)) eqn:E;
        [|reflexivity].
      apply trim_nil in E. congruence. }
    destruct socket as [sid|], isConnected; cbn; (split; [split|split]).
    + intros _. repeat split; [exact Hws | discriminate].
    + intros _. discriminate.
    + intros H. discriminate H.
    + intros sid' m [= <- <-]. repeat split.
    + intros H. exfalso. apply H. reflexivity.
    + intros (_ & _ & H). discriminate H.
    + intros _. reflexivity.
    + intros sid' m H. discriminate H.
    + intros H. exfalso. apply H. reflexivity.
    + intros (_ & H & _). exfalso. apply H. reflexivity.
    + intros _. reflexivity.
    + intros sid' m H. discriminate H.
    + intros H. exfalso. apply H. reflexivity.
    + intros (_ & H & _). exfalso. apply H. reflexivity.
    + intros _. reflexivity.
    + intros sid' m H. discriminate H.
Qed.

Lemma sendMessage_guard_witness :
  Chat.sendMessage (Some 3) true 7 (Chat.mkState [] [32; 104; 105]%N)
  = (Chat.mkState [] [],
     Some (3, Chat.mkMessage [32; 104; 105]%N None 7))
  /\ Chat.sendMessage (Some 3) true 7 (Chat.mkState [] [32; 9; 160]%N)
     = (Chat.mkState [] [32; 9; 160]%N, None).
Proof.
  destruct (sendMessage_guard (Some 3) true 7 (Chat.mkState [] [32; 104; 105]%N))
    as (_ & _ & H3).
  destruct (H3 3 (Chat.mkMessage [32; 104; 105]%N None 7) eq_refl) as (_ & _ & Hs).
  destruct (sendMessage_guard (Some 3) true 7 (Chat.mkState [] [32; 9; 160]%N))
    as (_ & H2 & _).
  split; [reflexivity|].
  specialize (H2 eq_refl). apply injective_projections; [exact H2 | reflexivity].
Defined.

Lemma chat_run_app socket c st (es1 es2 : list Chat.Event) :
  Chat.run socket c st (es1 ++ es2) = Chat.run socket c (Chat.run socket c st es1) es2.
Proof. apply foldl_app. Qed.

(** X19. The transcript of a chat whose socket exists is the initial
    transcript followed by the messages the relay delivered, in order of
    arrival: typing and sending never add to it (a sent message shows up
    only if the relay sends it back).  Without a socket the transcript
    never changes. *)
Theorem transcript_is_received (socket : option nat) (isConnected : bool)
    (s : Chat.State) (out : list (nat * Chat.Message)) (es : list Chat.Event) :
  Chat.messages (fst (Chat.run socket isConnected (s, out) es))
  = Chat.messages s
    ++ match socket with Some _ => Chat.received es | None => [] end.
Proof.
  revert s out. induction es as [|e es IH]; intros s out.
  - cbn. destruct socket; symmetry; apply app_nil_r.
  - change (Chat.run socket isConnected (s, out) (e :: es))
      with (Chat.run socket isConnected (Chat.step socket isConnected (s, out) e) es).
    destruct e as [m|v|now]; cbn [Chat.step Chat.received].
    + destruct socket as [sid|]; rewrite IH; cbn; [|reflexivity].
      rewrite <- app_assoc. reflexivity.
    + rewrite IH. reflexivity.
    + unfold Chat.sendMessage.
      destruct (Chat.trim (Chat.inputMessage s)), socket, isConnected;
        cbn; rewrite IH; reflexivity.
Qed.

(** ** Toasts *)

Lemma removeToast_elem (i : string) (s : Toast.State) (t : Toast.Toast) :
  In t (Toast.toasts (Toast.removeToast i s))
  <-> In t (Toast.toasts s) /\ Toast.id t <> i.
Proof.
  unfold Toast.removeToast. cbn. rewrite filter_In.
  rewrite negb_true_iff, String.eqb_neq. reflexivity.
Qed.

Lemma filter_all {A} (f : A -> bool) (l : list A) :
  (forall x, In x l -> f x = true) -> List.filter f l = l.
Proof.
  induction l as [|a l IH]; intros H; cbn; [reflexivity|].
  rewrite (H a) by (left; reflexivity). f_equal. apply IH.
  intros x Hx. apply H. right. exact Hx.
Qed.

Lemma filter_filter_same {A} (f : A -> bool) (l : list A) :
  List.filter f (List.filter f l) = List.filter f l.
Proof.
  apply filter_all. intros x Hx. apply filter_In in Hx as [_ Hx]. exact Hx.
Qed.

Lemma removeToast_removes_aux (i : string) (s : Toast.State) :
  (forall t, In t (Toast.toasts s) -> Toast.id t <> i) ->
  Toast.toasts (Toast.removeToast i s) = Toast.toasts s.
Proof.
  intros H. unfold Toast.removeToast. cbn. apply filter_all. intros t Ht.
  apply negb_true_iff, String.eqb_neq, H, Ht.
Qed.

(** X20. [removeToast i] removes every toast whose identifier is [i] and
    keeps the others in their order; it is idempotent, it changes nothing
    when no toast has that identifier, and it does not cancel the toast's
    auto-remove timer. *)
Theorem removeToast_removes (i : string) (s : Toast.State) :
  (forall t, In t (Toast.toasts (Toast.removeToast i s))
             <-> In t (Toast.toasts s) /\ Toast.id t <> i)
  /\ Toast.toasts (Toast.removeToast i s) `sublist_of` Toast.toasts s
  /\ Toast.removeToast i (Toast.removeToast i s) = Toast.removeToast i s
  /\ ((forall t, In t (Toast.toasts s) -> Toast.id t <> i) ->
      Toast.removeToast i s = s)
  /\ Toast.pending (Toast.removeToast i s) = Toast.pending s.
Proof.
  split; [intros t; apply removeToast_elem|].
  split.
  { unfold Toast.removeToast. cbn. induction (Toast.toasts s) as [|a l IH]; cbn.
    - constructor.
    - destruct (negb (String.eqb (Toast.id a) i)); by constructor. }
  split.
  { unfold Toast.removeToast. cbn. f_equal. apply filter_filter_same. }
  split; [|reflexivity].
  intros H. unfold Toast.removeToast. destruct s as [ts ps]. cbn in *.
  f_equal. apply filter_all. intros t Ht.
  apply negb_true_iff, String.eqb_neq, H, Ht.
Qed.

Lemma removeToast_removes_witness :
  Toast.removeToast "b"
    (Toast.mkState [Toast.mkToast "a" Toast.Info "x" None] ["a"])
  = Toast.mkState [Toast.mkToast "a" Toast.Info "x" None] ["a"].
Proof.
  destruct (removeToast_removes "b"
              (Toast.mkState [Toast.mkToast "a" Toast.Info "x" None] ["a"]))
    as (_ & _ & _ & H & _).
  apply H. intros t [<-|[]]. discriminate.
Defined.

(** X21. Adding a toast and then removing it by its identifier gives the
    toasts that removing that identifier from the earlier list gives: the
    earlier list itself when the identifier is fresh, and otherwise the
    earlier list without the older toasts that drew the same identifier.
    The new toast is shown last, and its timer is pending. *)
Theorem addToast_removeToast (i : string) (ty : Toast.ToastType) (ti : string)
    (de : option string) (s : Toast.State) :
  Toast.toasts (Toast.removeToast i (Toast.addToast i ty ti de s))
  = Toast.toasts (Toast.removeToast i s)
  /\ ((forall t, In t (Toast.toasts s) -> Toast.id t <> i) ->
      Toast.toasts (Toast.removeToast i (Toast.addToast i ty ti de s))
      = Toast.toasts s)
  /\ last (Toast.toasts (Toast.addToast i ty ti de s))
     = Some (Toast.mkToast i ty ti de)
  /\ In i (Toast.pending (Toast.addToast i ty ti de s)).
Proof.
  assert (Toast.toasts (Toast.removeToast i (Toast.addToast i ty ti de s))
          = Toast.toasts (Toast.removeToast i s)) as H.
  { unfold Toast.removeToast, Toast.addToast. cbn. rewrite List.filter_app. cbn.
    rewrite String.eqb_refl. cbn. apply app_nil_r. }
  split; [exact H|]. split.
  - intros Hf. rewrite H. apply removeToast_removes_aux, Hf.
  - split.
    + unfold Toast.addToast. cbn. apply last_snoc.
    + unfold Toast.addToast. cbn. apply in_or_app. right. left. reflexivity.
Qed.

Lemma addToast_removeToast_witness :
  Toast.toasts
    (Toast.removeToast "a" (Toast.addToast "a" Toast.Info "x" None Toast.initial))
  = [].
Proof.
  destruct (addToast_removeToast "a" Toast.Info "x" None Toast.initial)
    as (_ & H & _).
  apply H. intros t [].
Defined.

Lemma In_delete {A} (l : list A) (k : nat) (x y : A) :
  l !! k = Some y -> x <> y -> In x l -> In x (delete k l).
Proof.
  revert k. induction l as [|a l IH]; intros k Hk Hne Hin; [destruct Hin|].
  destruct k as [|k]; cbn in *.
  - injection Hk as ->. destruct Hin as [->|Hin]; [contradiction | exact Hin].
  - destruct Hin as [->|Hin]; [left; reflexivity|]. right. eapply IH; eauto.
Qed.

Lemma toast_timers_ok_step (s : Toast.State) (e : Toast.Event) :
  toast_timers_ok s -> toast_timers_ok (Toast.step s e).
Proof.
  intros H t. destruct e as [i ty ti de|i|k]; cbn [Toast.step].
  - unfold Toast.addToast. cbn. intros Hin. apply in_app_or in Hin.
    apply in_or_app. destruct Hin as [Hin|[<-|[]]].
    + left. apply H, Hin.
    + right. left. reflexivity.
  - intros Hin. apply removeToast_elem in Hin as [Hin _]. apply H, Hin.
  - unfold Toast.fire. destruct (Toast.pending s !! k) as [i|] eqn:Hk; [|apply H].
    intros Hin. apply removeToast_elem in Hin as [Hin Hne]. cbn in *.
    apply (In_delete _ k _ i Hk Hne). apply H, Hin.
Qed.

Lemma fire_all_toasts (l : list string) (ts : list Toast.Toast) :
  (forall t, In t ts -> In (Toast.id t) l) ->
  Toast.toasts (foldl (fun s' i => Toast.removeToast i s') (Toast.mkState ts []) l)
  = [].
Proof.
  revert ts. induction l as [|i l IH]; intros ts H; cbn.
  - destruct ts as [|t ts]; [reflexivity|]. destruct (H t (or_introl eq_refl)).
  - apply IH. intros t Hin. apply filter_In in Hin as [Hin Hne].
    apply negb_true_iff, String.eqb_neq in Hne.
    destruct (H t Hin) as [Heq|Hl]; [congruence | exact Hl].
Qed.

(** X22. After any sequence of additions, dismissals and timer firings,
    every toast still shown has its auto-remove timer pending; so once
    the pending timers have all fired, no toast is left. *)
Theorem toasts_all_expire (es : list Toast.Event) :
  toast_timers_ok (Toast.run Toast.initial es)
  /\ Toast.toasts (Toast.fire_all (Toast.run Toast.initial es)) = [].
Proof.
  assert (toast_timers_ok (Toast.run Toast.initial es)) as H.
  { unfold Toast.run.
    assert (toast_timers_ok Toast.initial) as H0 by (intros t []).
    revert H0. generalize Toast.initial.
    induction es as [|e es IH]; intros s Hs; [exact Hs|].
    cbn. apply IH, toast_timers_ok_step, Hs. }
  split; [exact H|]. unfold Toast.fire_all. apply fire_all_toasts, H.
Qed.

(** ** The local stream and the retry counter *)

Lemma stream_wf_kept (ts ts' : list Track) (ms : option MediaStream) :
  tracks_kept ts ts' -> stream_wf ts ms -> stream_wf ts' ms.
Proof.
  intros Hk H l Hl. destruct (H l Hl) as [Hnd Hin]. split; [exact Hnd|].
  intros j Hj. destruct (Hin j Hj) as [t Ht].
  destruct (Hk j t Ht) as (t' & Ht' & _). eauto.
Qed.

Lemma localStream_step (w : World) (e : Event) :
  localStream (streams (step w e)) = localStream (streams w)
  \/ exists ts, e = EvMediaOk ts.
Proof.
  destruct e as [ts|msg|sid m o|i ev|t| | |]; cbn [step];
    [right; eauto|..]; left; unfold_handlers; crush_step;
    first [reflexivity | congruence].
Qed.

Lemma stream_wf_step (w : World) (e : Event) :
  stream_wf (tracks w) (localStream (streams w)) ->
  stream_wf (tracks (step w e)) (localStream (streams (step w e))).
Proof.
  intros H. destruct (localStream_step w e) as [Heq|[ts ->]].
  - rewrite Heq. eapply stream_wf_kept; [apply tracks_kept_step | exact H].
  - cbn. intros l [= <-]. split.
    + apply NoDup_ListNoDup, List.seq_NoDup.
    + intros j Hj. apply in_seq in Hj. apply lookup_lt_is_Some.
      rewrite length_app. lia.
Qed.

(** X23. In every reachable state the local stream, when there is one,
    consists of distinct tracks that are all in the track store; so the
    mute buttons always act on a stream of distinct tracks. *)
Theorem localStream_distinct_tracks (w : World) (ms : MediaStream) :
  reachable w ->
  localStream (streams w) = Some ms ->
  NoDup ms /\ forall j, In j ms -> is_Some (tracks w !! j).
Proof.
  intros Hr. revert ms.
  change (stream_wf (tracks w) (localStream (streams w))).
  revert w Hr. apply reachable_invariant.
  - intros l Hl. discriminate Hl.
  - intros w e _. apply stream_wf_step.
Qed.

Lemma localStream_distinct_tracks_witness :
  NoDup [0; 1] /\ forall j, In j [0; 1] -> is_Some (tracks in_call !! j).
Proof.
  apply (localStream_distinct_tracks in_call [0; 1] reachable_in_call).
  reflexivity.
Defined.

(** X24. The retry counter changes only in the ICE handler: an event
    that changes [reconnectAttempts] is an ICE state change of a live
    handle, either to [failed], which adds one, or to [connected], which
    resets it to 0.  No other event, and no other ICE state, touches
    it. *)
Theorem reconnectAttempts_only_ice (w : World) (e : Event) :
  reconnectAttempts (connectionState (step w e))
    <> reconnectAttempts (connectionState w) ->
  exists i pc st,
    e = EvPc i (IceConnectionStateChange st)
    /\ pcs w !! i = Some pc /\ pc_closed pc = false
    /\ ((st = IceFailed
         /\ cap_reconnectAttempts (pc_env pc) < MAX_RECONNECT_ATTEMPTS
         /\ reconnectAttempts (connectionState (step w e))
            = reconnectAttempts (connectionState w) + 1)
        \/ (st = IceConnected
            /\ reconnectAttempts (connectionState (step w e)) = 0)).
Proof.
  destruct e as [ts|msg|sid m o|i ev|t| | |]; cbn [step];
    unfold_handlers; crush_step;
    try (intros Hn; exfalso; apply Hn; reflexivity).
  - intros _. exists i, p, IceConnected. repeat split; try assumption.
    right. split; reflexivity.
  - intros _. exists i, p, IceFailed. repeat split; try assumption.
    left. split; [reflexivity|]. split; [|reflexivity].
    match goal with H : bool_decide _ = true |- _ =>
      exact (bool_decide_eq_true_1 _ H) end.
  - intros _. exists i, p, IceFailed. repeat split; try assumption.
    left. split; [reflexivity|]. split; [|reflexivity].
    match goal with H : bool_decide _ = true |- _ =>
      exact (bool_decide_eq_true_1 _ H) end.
Qed.

Lemma reconnectAttempts_only_ice_witness :
  exists i pc st,
    EvPc 0 (IceConnectionStateChange IceFailed)
      = EvPc i (IceConnectionStateChange st)
    /\ pcs matched !! i = Some pc /\ pc_closed pc = false
    /\ ((st = IceFailed
         /\ cap_reconnectAttempts (pc_env pc) < MAX_RECONNECT_ATTEMPTS
         /\ reconnectAttempts
              (connectionState
                 (step matched (EvPc 0 (IceConnectionStateChange IceFailed))))
            = reconnectAttempts (connectionState matched) + 1)
        \/ (st = IceConnected
            /\ reconnectAttempts
                 (connectionState
                    (step matched (EvPc 0 (IceConnectionStateChange IceFailed))))
               = 0)).
Proof.
  apply (reconnectAttempts_only_ice matched
           (EvPc 0 (IceConnectionStateChange IceFailed))).
  vm_compute. discriminate.
Defined.

(** ** One handle at a time *)

(** X25. In every reachable state at most one peer connection is live,
    and it is the one [peerConnectionRef] points to.  When
    [createPeerConnection] is called while a handle is live, the old
    handle is torn down first (no live connection is left, the remote
    stream is null, the local stream and its tracks are as before), and
    only then the new connection is created: it is fresh, it carries the
    tracks of the local stream that the calling callback closed over
    (which need not be the component's current local stream), it is the
    only live connection, and the old one stays closed. *)
Theorem at_most_one_handle (w : World) :
  reachable w ->
  length (live_handles w) <= 1
  /\ (forall i pc, pcs w !! i = Some pc -> pc_closed pc = false ->
                   peerConnectionRef w = Some i)
  /\ (forall env i old,
        peerConnectionRef w = Some i -> pcs w !! i = Some old ->
        let w1 := cleanupPeerConnection w in
        let r := createPeerConnection env true w in
        let j := length (pcs w) in
        let new := mkPC false Stable None None
                     (default [] (cap_localStream env)) [] IceNew env 0 in
        live_handles w1 = []
        /\ pcs w1 !! i = Some (pc_set_closed old)
        /\ remoteStream (streams w1) = None
        /\ localStream (streams w1) = localStream (streams w)
        /\ tracks w1 = tracks w
        /\ r = (Some j, set_peerConnectionRef (Some j)
                          (set_pcs (fun l => l ++ [new]) w1))
        /\ pcs (snd r) !! i = Some (pc_set_closed old)
        /\ pcs (snd r) !! j = Some new
        /\ live_handles (snd r) = [new]
        /\ remoteStream (streams (snd r)) = None
        /\ localStream (streams (snd r)) = localStream (streams w)
        /\ tracks (snd r) = tracks w).
Proof.
  intros Hr. pose proof (reachable_one_handle w Hr) as Hone.
  split; [by apply one_handle_live|]. split; [exact Hone|].
  intros env i old Href Hold w1 r j new.
  pose proof (cleanupPeerConnection_all_closed w Hone) as Hclosed.
  assert (pcs w1 = pcs (update_pc i pc_set_closed w)) as Hpcs.
  { subst w1. unfold cleanupPeerConnection. rewrite Href. reflexivity. }
  assert (pcs w1 !! i = Some (pc_set_closed old)) as Hi.
  { rewrite Hpcs, update_pc_lookup. rewrite decide_True by reflexivity.
    rewrite Hold. reflexivity. }
  assert (length (pcs w1) = j) as Hlen.
  { rewrite Hpcs. apply update_pc_length. }
  assert (live_handles w1 = []) as Hlive.
  { apply all_closed_no_live. exact Hclosed. }
  assert (r = (Some j, set_peerConnectionRef (Some j)
                         (set_pcs (fun l => l ++ [new]) w1))) as Hrdef.
  { subst r. unfold createPeerConnection. cbn zeta. fold w1. rewrite Hlen.
    subst new. destruct (cap_localStream env); reflexivity. }
  split; [exact Hlive|]. split; [exact Hi|].
  split; [apply cleanupPeerConnection_remoteStream|].
  split; [apply cleanupPeerConnection_localStream|].
  split; [apply cleanupPeerConnection_tracks|].
  split; [exact Hrdef|].
  rewrite Hrdef. cbn [snd].
  change (pcs (set_peerConnectionRef (Some j) (set_pcs (fun l => l ++ [new]) w1)))
    with (pcs w1 ++ [new]).
  split.
  { rewrite lookup_app_l; [exact Hi|]. eapply lookup_lt_Some, Hi. }
  split.
  { rewrite <- Hlen. rewrite lookup_app_r by lia.
    replace (length (pcs w1) - length (pcs w1)) with 0 by lia. reflexivity. }
  split.
  { unfold live_handles.
    change (pcs (set_peerConnectionRef (Some j) (set_pcs (fun l => l ++ [new]) w1)))
      with (pcs w1 ++ [new]).
    rewrite List.filter_app. fold (live_handles w1). rewrite Hlive. reflexivity. }
  split; [apply cleanupPeerConnection_remoteStream|].
  split; [apply cleanupPeerConnection_localStream|].
  apply cleanupPeerConnection_tracks.
Qed.

Lemma at_most_one_handle_witness :
  live_handles (snd (createPeerConnection initiator_env true matched))
  = [mkPC false Stable None None [0; 1] [] IceNew initiator_env 0].
Proof.
  destruct (at_most_one_handle matched reachable_matched) as (_ & _ & H).
  apply (H initiator_env 0 matched_pc eq_refl eq_refl).
Defined.
